(** * Fossil Algorithm: filter and reduce over type-erased buffers

    A shallow embedding of [code/logic/filter.c] and [code/logic/reduce.c].

    Conventions of the embedding:
    - [size_t] is the 64-bit unsigned type of an LP64 target; its values are
      [Z] in the range [0, 2^64) and arithmetic that can wrap is written with
      [wrap].
    - A buffer is the list of its bytes.  An element pointer [base + i*stride]
      handed to a callback is modelled by the [stride] bytes found there, so
      a predicate is a function of the element's bytes and the user context.
    - C leaves out-of-bounds accesses undefined.  [load] and [store] are total
      list functions; they agree with C on in-bounds accesses, and every
      theorem about buffer contents assumes the buffer holds [count*stride]
      bytes.
    - A nullable pointer is an [option].
    - [malloc] is an argument of the strategies that allocate: it returns
      [None] when the allocation fails. *)

From Stdlib Require Import String.
From Stdlib Require Import ZArith List Lia Bool Permutation.
From Stdlib Require Import Strings.Byte.
Import ListNotations.

Open Scope Z_scope.

(* ====================================================== *)
(** ** Machine integers and bytes *)
(* ====================================================== *)

Definition SIZE_BITS : Z := 64.
Definition SIZE_MOD : Z := 2 ^ SIZE_BITS.
Definition PTRDIFF_MAX : Z := 2 ^ 63 - 1.

(** Unsigned wrap-around of [size_t] arithmetic. *)
Definition wrap (x : Z) : Z := x mod SIZE_MOD.

Definition byte_of_Z (z : Z) : byte :=
  match Byte.of_N (Z.to_N (z mod 256)) with
  | Some b => b
  | None => x00
  end.

Definition Z_of_byte (b : byte) : Z := Z.of_N (Byte.to_N b).

(** Little-endian encoding of the low [n] bytes of [z]. *)
Fixpoint encode_le (n : nat) (z : Z) : list byte :=
  match n with
  | O => []
  | S n' => byte_of_Z z :: encode_le n' (z / 256)
  end.

(** Little-endian decoding, unsigned. *)
Fixpoint decode_le (bs : list byte) : Z :=
  match bs with
  | [] => 0
  | b :: bs' => Z_of_byte b + 256 * decode_le bs'
  end.

(** Two's complement reading of a [w]-bit unsigned value. *)
Definition to_signed (w : Z) (z : Z) : Z :=
  let u := z mod 2 ^ w in
  if u <? 2 ^ (w - 1) then u else u - 2 ^ w.

(* ====================================================== *)
(** ** Memory operations *)
(* ====================================================== *)

(** The [n] bytes at offset [off]. *)
Definition load (m : list byte) (off n : Z) : list byte :=
  firstn (Z.to_nat n) (skipn (Z.to_nat off) m).

(** Overwrite [length data] bytes at offset [off]. *)
Definition store (m : list byte) (off : Z) (data : list byte) : list byte :=
  firstn (Z.to_nat off) m ++ data ++ skipn (Z.to_nat off + length data) m.

(** [memmove(m + dst, m + src, n)]: the source bytes are read before any
    byte is written, so overlapping ranges are handled. *)
Definition memmove (m : list byte) (dst src n : Z) : list byte :=
  store m dst (load m src n).

(** [memcpy(dst_m + dst, src_m + src, n)] between two distinct objects. *)
Definition memcpy (dst_m : list byte) (dst : Z) (src_m : list byte) (src n : Z)
  : list byte :=
  store dst_m dst (load src_m src n).

(** [memset(m + off, c, n)]. *)
Definition memset (m : list byte) (off : Z) (c : byte) (n : Z) : list byte :=
  store m off (repeat c (Z.to_nat n)).

(** The element of index [i] in a buffer of [stride]-byte elements. *)
Definition elem_at (m : list byte) (stride i : Z) : list byte :=
  load m (i * stride) stride.

(** The elements of indices [lo, lo+1, ..., lo+n-1]. *)
Fixpoint elems_from (m : list byte) (stride : Z) (lo : Z) (n : nat)
  : list (list byte) :=
  match n with
  | O => []
  | S n' => elem_at m stride lo :: elems_from m stride (lo + 1) n'
  end.

(** The first [count] elements of a buffer. *)
Definition elements (m : list byte) (stride count : Z) : list (list byte) :=
  elems_from m stride 0 (Z.to_nat count).

(* ====================================================== *)
(** ** Loops *)
(* ====================================================== *)

(** [n] iterations of a counted loop whose index starts at [i]. *)
Fixpoint for_loop {S : Type} (n : nat) (i : Z) (body : Z -> S -> S) (s : S)
  : S :=
  match n with
  | O => s
  | S n' => for_loop n' (i + 1) body (body i s)
  end.

(** [for (size_t i = start; i < stop; ++i) body]. *)
Definition for_range {S : Type} (start stop : Z) (body : Z -> S -> S) (s : S)
  : S :=
  for_loop (Z.to_nat (stop - start)) start body s.

(** The lane loop shared by the lane strategies:
<<
    for (size_t lane = 0; lane < lanes; ++lane) {
        size_t start = lane * lane_size;
        size_t end   = start + lane_size;
        if (start >= count) break;
        if (end > count) end = count;
        body(start, end);
    }
>>
    [n] is the number of iterations still allowed by [lane < lanes]. *)
Fixpoint lane_loop {S : Type} (n : nat) (lane count lane_size : Z)
         (body : Z -> Z -> S -> S) (s : S) : S :=
  match n with
  | O => s
  | S n' =>
      let start := wrap (lane * lane_size) in
      let stop := wrap (start + lane_size) in
      if count <=? start then s
      else
        let stop := if count <? stop then count else stop in
        lane_loop n' (lane + 1) count lane_size body (body start stop s)
  end.

Definition for_lanes {S : Type} (count lanes lane_size : Z)
           (body : Z -> Z -> S -> S) (s : S) : S :=
  lane_loop (Z.to_nat lanes) 0 count lane_size body s.

(** [if (lanes == 0) lanes = 1; if (lanes > count) lanes = count;] *)
Definition clamp_lanes (count lanes : Z) : Z :=
  let lanes := if lanes =? 0 then 1 else lanes in
  if count <? lanes then count else lanes.

(** [(count + lanes - 1) / lanes]; division by zero is undefined. *)
Definition lane_size_of (count lanes : Z) : option Z :=
  if lanes =? 0 then None else Some (wrap (count + lanes - 1) / lanes).

(** The body that makes the lane loop record its ranges. *)
Definition collect_range (start stop : Z) (acc : list (Z * Z)) : list (Z * Z) :=
  acc ++ [(start, stop)].

(** The lane ranges [start, end) the lane loop hands to its body, in order. *)
Definition lane_ranges (count lanes lane_size : Z) : list (Z * Z) :=
  for_lanes count lanes lane_size collect_range [].

(** The body that makes an element loop record its indices. *)
Definition snoc_index (i : Z) (acc : list Z) : list Z := acc ++ [i].

(** The indices of a range, in scan order. *)
Definition range_indices (r : Z * Z) : list Z :=
  for_range (fst r) (snd r) snoc_index [].

(* ====================================================== *)
(** ** Filter: type table *)
(* ====================================================== *)

Module Filter.

Definition g_filter_types : list (string * Z) :=
  [ ("i8", 1); ("i16", 2); ("i32", 4); ("i64", 8);
    ("u8", 1); ("u16", 2); ("u32", 4); ("u64", 8);
    ("f32", 4); ("f64", 8);
    ("char", 1); ("cstr", 8);
    ("bool", 1);
    ("hex", 8); ("oct", 8); ("bin", 8);
    ("size", 8); ("datetime", 8); ("duration", 8);
    ("any", 1); ("null", 0) ]%string.

Fixpoint table_lookup (tbl : list (string * Z)) (id : string) : Z :=
  match tbl with
  | [] => 0
  | (k, sz) :: tbl' => if String.eqb k id then sz else table_lookup tbl' id
  end.

Definition fossil_algorithm_filter_type_sizeof (type_id : option string) : Z :=
  match type_id with
  | None => 0
  | Some id => table_lookup g_filter_types id
  end.

Definition fossil_algorithm_filter_type_supported (type_id : option string)
  : bool :=
  negb (fossil_algorithm_filter_type_sizeof type_id =? 0).

(* ====================================================== *)
(** ** Filter: core algorithms *)
(* ====================================================== *)

Section Algorithms.

Variable user : Type.

(** The callback type [fossil_algorithm_filter_predicate]: element bytes
    and user context to keep/discard. *)
Definition predicate : Type := list byte -> user -> bool.

(** The scan state of the compacting strategies: the buffer being written
    and the write cursor. *)
Definition cursor : Type := (list byte * Z)%type.

Definition inplace_body (stride : Z) (pred : predicate) (u : user)
           (read : Z) (st : cursor) : cursor :=
  let '(base, write) := st in
  if pred (elem_at base stride read) u then
    ((if negb (write =? read)
      then memmove base (write * stride) (read * stride) stride
      else base),
     write + 1)
  else st.

Definition filter_inplace (base : list byte) (count stride : Z)
           (pred : predicate) (u : user) : cursor :=
  for_range 0 count (inplace_body stride pred u) (base, 0).

(** One step of the scratch-copy scans: [base] is only read, the state is
    the scratch buffer and its cursor. *)
Definition stable_body (base : list byte) (stride : Z) (pred : predicate)
           (u : user) (i : Z) (st : cursor) : cursor :=
  let '(tmp, kept) := st in
  if pred (elem_at base stride i) u then
    (memcpy tmp (kept * stride) base (i * stride) stride, kept + 1)
  else st.

Definition filter_stable (malloc : Z -> option (list byte))
           (base : list byte) (count stride : Z)
           (pred : predicate) (u : user) : cursor :=
  match malloc (wrap (count * stride)) with
  | None => (base, 0)
  | Some tmp =>
      let '(tmp', kept) :=
        for_range 0 count (stable_body base stride pred u) (tmp, 0) in
      (memcpy base 0 tmp' 0 (kept * stride), kept)
  end.

Definition count_only_body (base : list byte) (stride : Z) (pred : predicate)
           (u : user) (i : Z) (hits : Z) : Z :=
  if pred (elem_at base stride i) u then hits + 1 else hits.

Definition filter_count_only (base : list byte) (count stride : Z)
           (pred : predicate) (u : user) : cursor :=
  (base, for_range 0 count (count_only_body base stride pred u) 0).

(** Forward scan with early [return 1]. *)
Fixpoint first_loop (n : nat) (i : Z) (base : list byte) (stride : Z)
         (pred : predicate) (u : user) : Z :=
  match n with
  | O => 0
  | S n' =>
      if pred (elem_at base stride i) u then 1
      else first_loop n' (i + 1) base stride pred u
  end.

Definition filter_first (base : list byte) (count stride : Z)
           (pred : predicate) (u : user) : cursor :=
  (base, first_loop (Z.to_nat count) 0 base stride pred u).

(** Backward scan [for (i = count; i-- > 0; )]; [n] is the value of [i]
    before the test. *)
Fixpoint last_loop (n : nat) (base : list byte) (stride : Z)
         (pred : predicate) (u : user) : Z :=
  match n with
  | O => 0
  | S n' =>
      if pred (elem_at base stride (Z.of_nat n')) u then 1
      else last_loop n' base stride pred u
  end.

Definition filter_last (base : list byte) (count stride : Z)
           (pred : predicate) (u : user) : cursor :=
  (base, last_loop (Z.to_nat count) base stride pred u).

(** The state of the two-pointer partition. *)
Record partition_state : Type := mkPartition {
  p_base : list byte;
  p_left : Z;
  p_right : Z
}.

Definition partition_step (stride : Z) (pred : predicate) (u : user)
           (st : partition_state) : partition_state :=
  if pred (elem_at (p_base st) stride (p_left st)) u then
    mkPartition (p_base st) (p_left st + 1) (p_right st)
  else
    let right := p_right st - 1 in
    mkPartition
      (memmove (p_base st) (p_left st * stride) (right * stride) stride)
      (p_left st) right.

(** [while (left < right) step]; every step shrinks [right - left] by one,
    so [n = count] iterations always reach the exit test. *)
Fixpoint partition_loop (n : nat) (stride : Z) (pred : predicate) (u : user)
         (st : partition_state) : partition_state :=
  match n with
  | O => st
  | S n' =>
      if p_left st <? p_right st
      then partition_loop n' stride pred u (partition_step stride pred u st)
      else st
  end.

Definition filter_partition (base : list byte) (count stride : Z)
           (pred : predicate) (u : user) : cursor :=
  let st := partition_loop (Z.to_nat count) stride pred u
                           (mkPartition base 0 count) in
  (p_base st, p_left st).

Definition lane_compact_body (stride : Z) (pred : predicate) (u : user)
           (i : Z) (st : cursor) : cursor :=
  let '(base, write) := st in
  if pred (elem_at base stride i) u then
    (memmove base (write * stride) (i * stride) stride, write + 1)
  else st.

(** [None] is the undefined division by a lane count of zero. *)
Definition filter_lane_compact (base : list byte) (count stride lanes : Z)
           (pred : predicate) (u : user) : option cursor :=
  let lanes := clamp_lanes count lanes in
  match lane_size_of count lanes with
  | None => None
  | Some lane_size =>
      Some (for_lanes count lanes lane_size
              (fun start stop st =>
                 for_range start stop (lane_compact_body stride pred u) st)
              (base, 0))
  end.

Definition filter_lane_stable (malloc : Z -> option (list byte))
           (base : list byte) (count stride lanes : Z)
           (pred : predicate) (u : user) : option cursor :=
  let lanes := clamp_lanes count lanes in
  match malloc (wrap (count * stride)) with
  | None => Some (base, 0)
  | Some tmp =>
      match lane_size_of count lanes with
      | None => None
      | Some lane_size =>
          let '(tmp', out) :=
            for_lanes count lanes lane_size
              (fun start stop st =>
                 for_range start stop (stable_body base stride pred u) st)
              (tmp, 0) in
          Some (memcpy base 0 tmp' 0 (out * stride), out)
      end
  end.

(* ====================================================== *)
(** ** Filter: execution entry point *)
(* ====================================================== *)

(** What a call leaves behind: the status, the buffer, and the output slot
    ([None] when the caller passed no slot). *)
Record exec_result : Type := mkExec {
  status : Z;
  buffer : option (list byte);
  out_count : option Z
}.

Definition streq (a b : string) : bool := String.eqb a b.

(** The [AUTO resolution] and [DRY-RUN forces count-only] steps. *)
Definition resolve_algorithm (algorithm_id mode_id : string) (lanes : Z)
  : string :=
  let algorithm_id :=
    if streq algorithm_id "auto" then
      if streq mode_id "lane" || (1 <? lanes)
      then "lane-compact"%string
      else "inplace"%string
    else algorithm_id in
  if streq mode_id "dry-run" then "count-only"%string else algorithm_id.

(** What the [Dispatch] step yields: the result of the strategy that ran,
    no strategy of that name, or undefined behaviour inside the strategy. *)
Inductive dispatched : Type :=
| Ran (r : cursor)
| UnknownAlgorithm
| UndefinedBehaviour.

Definition ran (r : option cursor) : dispatched :=
  match r with
  | Some r => Ran r
  | None => UndefinedBehaviour
  end.

Definition dispatch (malloc : Z -> option (list byte)) (algorithm_id : string)
           (bytes : list byte) (count stride lanes : Z)
           (pred : predicate) (u : user) : dispatched :=
  if streq algorithm_id "inplace" || streq algorithm_id "compact" then
    Ran (filter_inplace bytes count stride pred u)
  else if streq algorithm_id "stable" then
    Ran (filter_stable malloc bytes count stride pred u)
  else if streq algorithm_id "lane-compact" then
    ran (filter_lane_compact bytes count stride lanes pred u)
  else if streq algorithm_id "lane-stable" then
    ran (filter_lane_stable malloc bytes count stride lanes pred u)
  else if streq algorithm_id "count-only" then
    Ran (filter_count_only bytes count stride pred u)
  else if streq algorithm_id "first" then
    Ran (filter_first bytes count stride pred u)
  else if streq algorithm_id "last" then
    Ran (filter_last bytes count stride pred u)
  else if streq algorithm_id "partition" then
    Ran (filter_partition bytes count stride pred u)
  else UnknownAlgorithm.

(** [None] is undefined behaviour. *)
Definition fossil_algorithm_filter_exec
           (malloc : Z -> option (list byte))
           (base : option (list byte)) (count : Z)
           (type_id algorithm_id mode_id : option string) (lanes : Z)
           (pred : option predicate) (u : user)
           (out : option Z) : option exec_result :=
  match base, pred with
  | Some bytes, Some pred =>
      let stride := fossil_algorithm_filter_type_sizeof type_id in
      if stride =? 0 then Some (mkExec (-2) base out)
      else
        let algorithm_id :=
          match algorithm_id with Some a => a | None => "auto"%string end in
        let mode_id :=
          match mode_id with Some m => m | None => "auto"%string end in
        let algorithm_id := resolve_algorithm algorithm_id mode_id lanes in
        match dispatch malloc algorithm_id bytes count stride lanes pred u with
        | Ran result =>
            Some (mkExec 0 (Some (fst result))
                         (match out with
                          | Some _ => Some (snd result)
                          | None => None
                          end))
        | UnknownAlgorithm => Some (mkExec (-3) base out)
        | UndefinedBehaviour => None
        end
  | _, _ => Some (mkExec (-1) base out)
  end.

End Algorithms.

Arguments predicate : clear implicits.
Arguments inplace_body {user}.
Arguments filter_inplace {user}.
Arguments stable_body {user}.
Arguments filter_stable {user}.
Arguments count_only_body {user}.
Arguments filter_count_only {user}.
Arguments filter_first {user}.
Arguments filter_last {user}.
Arguments partition_step {user}.
Arguments partition_loop {user}.
Arguments filter_partition {user}.
Arguments lane_compact_body {user}.
Arguments filter_lane_compact {user}.
Arguments filter_lane_stable {user}.
Arguments dispatch {user}.
Arguments fossil_algorithm_filter_exec {user}.

End Filter.

(* ====================================================== *)
(** ** Reduce *)
(* ====================================================== *)

Module Reduce.

Definition g_reduce_types : list (string * Z) :=
  [ ("i8", 1); ("i16", 2); ("i32", 4); ("i64", 8);
    ("u8", 1); ("u16", 2); ("u32", 4); ("u64", 8);
    ("f32", 4); ("f64", 8);
    ("bool", 1);
    ("size", 8); ("datetime", 8); ("duration", 8);
    ("any", 1); ("null", 0) ]%string.

Fixpoint table_lookup (tbl : list (string * Z)) (id : string) : Z :=
  match tbl with
  | [] => 0
  | (k, sz) :: tbl' => if String.eqb id k then sz else table_lookup tbl' id
  end.

Definition fossil_algorithm_reduce_type_sizeof (type_id : option string) : Z :=
  match type_id with
  | None => 0
  | Some id => table_lookup g_reduce_types id
  end.

Definition fossil_algorithm_reduce_type_supported (type_id : option string)
  : bool :=
  negb (fossil_algorithm_reduce_type_sizeof type_id =? 0).

Definition streq (a b : string) : bool := String.eqb a b.

(** Floating-point arithmetic on the IEEE encodings of [float] and
    [double] is left to the target: addition and the [<] comparison on
    4-byte and 8-byte encodings. *)
Record float_ops : Type := mkFloatOps {
  f32_add : list byte -> list byte -> list byte;
  f32_lt : list byte -> list byte -> bool;
  f64_add : list byte -> list byte -> list byte;
  f64_lt : list byte -> list byte -> bool
}.

(** The encodings of [FLT_MAX], [-FLT_MAX], [DBL_MAX] and [-DBL_MAX]. *)
Definition FLT_MAX_bytes : list byte := encode_le 4 0x7F7FFFFF.
Definition neg_FLT_MAX_bytes : list byte := encode_le 4 0xFF7FFFFF.
Definition DBL_MAX_bytes : list byte := encode_le 8 0x7FEFFFFFFFFFFFFF.
Definition neg_DBL_MAX_bytes : list byte := encode_le 8 0xFFEFFFFFFFFFFFFF.

(** [*(T* )p] for an integer type of [size] bytes. *)
Definition read_int (signed : bool) (size : Z) (p : list byte) : Z :=
  let v := decode_le (load p 0 size) in
  if signed then to_signed (8 * size) v else v.

(** [*(T* )p = v], keeping the low [size] bytes of [v]. *)
Definition write_int (size : Z) (p : list byte) (v : Z) : list byte :=
  store p 0 (encode_le (Z.to_nat size) v).

(** [*(bool* )p]: a [bool] object holds 0 or 1; reading any other byte
    through a [bool] pointer is undefined ([None]). *)
Definition read_bool (p : list byte) : option bool :=
  let v := decode_le (load p 0 1) in
  if v =? 0 then Some false
  else if v =? 1 then Some true
  else None.

Definition write_bool (p : list byte) (b : bool) : list byte :=
  store p 0 [byte_of_Z (if b then 1 else 0)].

Section Reducers.

Variable F : float_ops.
Variable user : Type.

(** The callback type [fossil_algorithm_reduce_fn]: it receives the
    accumulator, the element and the user context, and leaves the new
    accumulator. *)
Definition reducer : Type := list byte -> list byte -> user -> list byte.

Definition add_int (signed : bool) (size : Z) (accum elem : list byte)
  : list byte :=
  write_int size accum (read_int signed size accum + read_int signed size elem).

Definition reduce_sum (accum elem : list byte) (type_id : string) : list byte :=
  if streq type_id "i8" then add_int true 1 accum elem
  else if streq type_id "i16" then add_int true 2 accum elem
  else if streq type_id "i32" then add_int true 4 accum elem
  else if streq type_id "i64" then add_int true 8 accum elem
  else if streq type_id "u8" then add_int false 1 accum elem
  else if streq type_id "u16" then add_int false 2 accum elem
  else if streq type_id "u32" then add_int false 4 accum elem
  else if streq type_id "u64" then add_int false 8 accum elem
  else if streq type_id "f32" then
    store accum 0 (f32_add F (load accum 0 4) (load elem 0 4))
  else if streq type_id "f64" then
    store accum 0 (f64_add F (load accum 0 8) (load elem 0 8))
  else accum.

Definition min_int (size : Z) (accum elem : list byte) : list byte :=
  let v := read_int true size elem in
  if v <? read_int true size accum then write_int size accum v else accum.

Definition reduce_min (accum elem : list byte) (type_id : string) : list byte :=
  if streq type_id "i8" then min_int 1 accum elem
  else if streq type_id "i16" then min_int 2 accum elem
  else if streq type_id "i32" then min_int 4 accum elem
  else if streq type_id "i64" then min_int 8 accum elem
  else if streq type_id "f32" then
    let v := load elem 0 4 in
    if f32_lt F v (load accum 0 4) then store accum 0 v else accum
  else if streq type_id "f64" then
    let v := load elem 0 8 in
    if f64_lt F v (load accum 0 8) then store accum 0 v else accum
  else accum.

Definition max_int (size : Z) (accum elem : list byte) : list byte :=
  let v := read_int true size elem in
  if read_int true size accum <? v then write_int size accum v else accum.

Definition reduce_max (accum elem : list byte) (type_id : string) : list byte :=
  if streq type_id "i8" then max_int 1 accum elem
  else if streq type_id "i16" then max_int 2 accum elem
  else if streq type_id "i32" then max_int 4 accum elem
  else if streq type_id "i64" then max_int 8 accum elem
  else if streq type_id "f32" then
    let v := load elem 0 4 in
    if f32_lt F (load accum 0 4) v then store accum 0 v else accum
  else if streq type_id "f64" then
    let v := load elem 0 8 in
    if f64_lt F (load accum 0 8) v then store accum 0 v else accum
  else accum.

(** [*(bool* )accum = *(bool* )accum || *(const bool* )elem]: the element
    is read only when the accumulator is false; [None] is an undefined
    read. *)
Definition reduce_any (accum elem : list byte) : option (list byte) :=
  match read_bool accum with
  | None => None
  | Some true => Some (write_bool accum true)
  | Some false =>
      match read_bool elem with
      | None => None
      | Some e => Some (write_bool accum e)
      end
  end.

(** [*(bool* )accum = *(bool* )accum && *(const bool* )elem]: the element
    is read only when the accumulator is true. *)
Definition reduce_all (accum elem : list byte) : option (list byte) :=
  match read_bool accum with
  | None => None
  | Some false => Some (write_bool accum false)
  | Some true =>
      match read_bool elem with
      | None => None
      | Some e => Some (write_bool accum e)
      end
  end.

(** The accumulator initialisation at the head of
    [fossil_algorithm_reduce_exec]. *)
Definition init_accumulator (op_id type_id : string) (stride : Z)
           (out_result : list byte) : list byte :=
  if streq op_id "sum" || streq op_id "count" then
    memset out_result 0 x00 stride
  else if streq op_id "min" then
    if streq type_id "i8" then write_int 1 out_result (2 ^ 7 - 1)
    else if streq type_id "i16" then write_int 2 out_result (2 ^ 15 - 1)
    else if streq type_id "i32" then write_int 4 out_result (2 ^ 31 - 1)
    else if streq type_id "i64" then write_int 8 out_result (2 ^ 63 - 1)
    else if streq type_id "f32" then store out_result 0 FLT_MAX_bytes
    else if streq type_id "f64" then store out_result 0 DBL_MAX_bytes
    else out_result
  else if streq op_id "max" then
    if streq type_id "i8" then write_int 1 out_result (- 2 ^ 7)
    else if streq type_id "i16" then write_int 2 out_result (- 2 ^ 15)
    else if streq type_id "i32" then write_int 4 out_result (- 2 ^ 31)
    else if streq type_id "i64" then write_int 8 out_result (- 2 ^ 63)
    else if streq type_id "f32" then store out_result 0 neg_FLT_MAX_bytes
    else if streq type_id "f64" then store out_result 0 neg_DBL_MAX_bytes
    else out_result
  else if streq op_id "any" then write_bool out_result false
  else if streq op_id "all" then write_bool out_result true
  else out_result.

(** What one pass through a loop body leaves: the loop goes on, the
    function returns a status, or the behaviour is undefined (a call
    through a null reducer, a read of an invalid [bool]). *)
Inductive outcome : Type :=
| Next (accum : list byte)
| Return (status : Z) (accum : list byte)
| Undefined.

(** A step that may have read an invalid [bool]. *)
Definition defined_step (r : option (list byte)) : outcome :=
  match r with
  | Some accum => Next accum
  | None => Undefined
  end.

(** The dispatch on the operator inside the element loop. *)
Definition reduce_elem (op_id type_id : string) (reduce_fn : option reducer)
           (u : user) (accum elem : list byte) : outcome :=
  if streq op_id "sum" then Next (reduce_sum accum elem type_id)
  else if streq op_id "min" then Next (reduce_min accum elem type_id)
  else if streq op_id "max" then Next (reduce_max accum elem type_id)
  else if streq op_id "count" then
    Next (write_int 8 accum (wrap (read_int false 8 accum + 1)))
  else if streq op_id "any" then defined_step (reduce_any accum elem)
  else if streq op_id "all" then defined_step (reduce_all accum elem)
  else if streq op_id "custom" then
    match reduce_fn with
    | Some fn => Next (fn accum elem u)
    | None => Undefined
    end
  else Return (-3) accum.

(** [n] iterations of the element loop, left early by a [return]. *)
Fixpoint elem_loop (n : nat) (i : Z) (body : Z -> list byte -> outcome)
         (accum : list byte) : outcome :=
  match n with
  | O => Next accum
  | S n' =>
      match body i accum with
      | Next accum' => elem_loop n' (i + 1) body accum'
      | o => o
      end
  end.

(** The lane loop of [fossil_algorithm_reduce_exec]; [n] is the number of
    iterations still allowed by [lane < lanes]. *)
Fixpoint reduce_lane_loop (n : nat) (lane count lane_size : Z)
         (body : Z -> list byte -> outcome) (accum : list byte) : outcome :=
  match n with
  | O => Next accum
  | S n' =>
      let start := wrap (lane * lane_size) in
      let stop := wrap (start + lane_size) in
      if count <=? start then Next accum
      else
        let stop := if count <? stop then count else stop in
        match elem_loop (Z.to_nat (stop - start)) start body accum with
        | Next accum' =>
            reduce_lane_loop n' (lane + 1) count lane_size body accum'
        | o => o
        end
  end.

(** What a call leaves behind: the status and the accumulator ([None]
    when the caller passed no accumulator). *)
Record reduce_result : Type := mkReduce {
  status : Z;
  accumulator : option (list byte)
}.

Definition is_null {A : Type} (p : option A) : bool :=
  match p with Some _ => false | None => true end.

(** [None] is undefined behaviour. *)
Definition fossil_algorithm_reduce_exec
           (base : option (list byte)) (count : Z)
           (type_id op_id mode_id : option string) (lanes : Z)
           (out_result : option (list byte))
           (reduce_fn : option reducer) (u : user) : option reduce_result :=
  match base, out_result, type_id, op_id with
  | Some bytes, Some accum, Some type_id, Some op_id =>
      let stride := fossil_algorithm_reduce_type_sizeof (Some type_id) in
      if stride =? 0 then Some (mkReduce (-2) out_result)
      else if streq op_id "custom" && is_null reduce_fn
      then Some (mkReduce (-1) out_result)
      else
        let accum := init_accumulator op_id type_id stride accum in
        let lanes := if lanes =? 0 then 1 else lanes in
        let lane_size := wrap (count + lanes - 1) / lanes in
        match reduce_lane_loop (Z.to_nat lanes) 0 count lane_size
                (fun i a =>
                   reduce_elem op_id type_id reduce_fn u a
                               (elem_at bytes stride i))
                accum with
        | Next accum' => Some (mkReduce 0 (Some accum'))
        | Return st accum' => Some (mkReduce st (Some accum'))
        | Undefined => None
        end
  | _, _, _, _ => Some (mkReduce (-1) out_result)
  end.

End Reducers.

Arguments reducer : clear implicits.
Arguments fossil_algorithm_reduce_exec F {user}.

End Reduce.

(* ====================================================== *)
(** ** Data of the test cases *)
(* ====================================================== *)

Module Cases.

(** An [int32_t] array as bytes. *)
Definition i32s (l : list Z) : list byte := flat_map (encode_le 4) l.

(** A [uint8_t] array as bytes. *)
Definition u8s (l : list Z) : list byte := flat_map (encode_le 1) l.

(** [keep_even]: [*(const int * )element % 2 == 0]. *)
Definition keep_even : Filter.predicate unit :=
  fun element _ => Z.rem (to_signed 32 (decode_le element)) 2 =? 0.

Definition arr_1_to_6 : list byte := i32s [1; 2; 3; 4; 5; 6].

(** An allocator that always succeeds, with zeroed memory. *)
Definition malloc_zeroed (n : Z) : option (list byte) :=
  Some (repeat x00 (Z.to_nat n)).

(** An allocator that always fails. *)
Definition malloc_fails (n : Z) : option (list byte) := None.

(** A stand-in for the target's floating point, for calls on integer and
    boolean data, which never reach it. *)
Definition no_float : Reduce.float_ops :=
  Reduce.mkFloatOps (fun a _ => a) (fun _ _ => false)
                    (fun a _ => a) (fun _ _ => false).

End Cases.

(* ====================================================== *)
(** ** Specifications and loop invariants *)
(* ====================================================== *)

(** Consecutive non-empty half-open ranges leading from [a] to [c]. *)
Inductive chain : list (Z * Z) -> Z -> Z -> Prop :=
| chain_nil : forall a, chain [] a a
| chain_cons : forall a b c rs,
    a < b -> chain rs b c -> chain ((a, b) :: rs) a c.

(** The contract of [malloc]: a successful call yields that many bytes. *)
Definition malloc_ok (malloc : Z -> option (list byte)) : Prop :=
  forall n t, malloc n = Some t -> length t = Z.to_nat n.

(** An array of [count] elements of [stride] bytes inside an object; no
    object is larger than [PTRDIFF_MAX] bytes. *)
Definition buffer_ok (base : list byte) (count stride : Z) : Prop :=
  0 < stride /\ 0 <= count /\
  count * stride <= Z.of_nat (length base) /\
  Z.of_nat (length base) <= PTRDIFF_MAX.

(** The operator identifiers [fossil_algorithm_reduce_exec] dispatches on. *)
Definition known_operator (op_id : string) : bool :=
  existsb (String.eqb op_id)
          ["sum"; "min"; "max"; "count"; "any"; "all"; "custom"]%string.

Section Specs.

Variable user : Type.
Variable pred : Filter.predicate user.
Variable u : user.

(** The elements the predicate keeps, in scan order. *)
Definition kept (l : list (list byte)) : list (list byte) :=
  filter (fun e => pred e u) l.

(** The elements the predicate rejects, in scan order. *)
Definition rejected (l : list (list byte)) : list (list byte) :=
  filter (fun e => negb (pred e u)) l.

(** A strategy result [(buffer, k)] is order-preserving for the input
    [base]: the first [k] elements are the kept elements in their original
    order, and [k] is their number. *)
Definition order_preserving (base : list byte) (count stride : Z)
           (r : Filter.cursor) : Prop :=
  elements (fst r) stride (snd r) = kept (elements base stride count) /\
  snd r = Z.of_nat (length (kept (elements base stride count))).

(** A strategy result [(buffer, k)] left every byte at offset
    [>= k * stride] as it was in [base]. *)
Definition tail_untouched (base : list byte) (stride : Z)
           (r : Filter.cursor) : Prop :=
  length (fst r) = length base /\
  forall off : nat,
    snd r * stride <= Z.of_nat off ->
    nth_error (fst r) off = nth_error base off.

Variable base0 : list byte.
Variables count stride : Z.

(** After [j] elements have been scanned with write cursor [w]: the first
    [w] elements are the kept ones among the first [j] originals, and every
    byte from offset [w*stride] on is still the original one. *)
Definition compact_inv (j : nat) (st : Filter.cursor) : Prop :=
  length (fst st) = length base0 /\
  0 <= snd st <= Z.of_nat j /\
  elems_from (fst st) stride 0 (Z.to_nat (snd st)) =
    kept (elems_from base0 stride 0 j) /\
  skipn (Z.to_nat (snd st * stride)) (fst st) =
    skipn (Z.to_nat (snd st * stride)) base0.

(** The scratch-copy scan, [tmp0] being the scratch buffer as allocated. *)
Definition stable_inv (tmp0 : list byte) (j : nat) (st : Filter.cursor)
  : Prop :=
  length (fst st) = length tmp0 /\
  0 <= snd st <= Z.of_nat j /\
  elems_from (fst st) stride 0 (Z.to_nat (snd st)) =
    kept (elems_from base0 stride 0 j).

(** Between two steps of the partition: everything left of [left] passes
    the predicate, and the passing elements left of [right] are, up to
    order, the passing elements of the original buffer. *)
Definition partition_inv (st : Filter.partition_state) : Prop :=
  length (Filter.p_base st) = length base0 /\
  0 <= Filter.p_left st <= Filter.p_right st /\
  Filter.p_right st <= count /\
  Forall (fun e => pred e u = true)
         (elems_from (Filter.p_base st) stride 0
                     (Z.to_nat (Filter.p_left st))) /\
  Permutation
    (kept (elems_from (Filter.p_base st) stride 0
                      (Z.to_nat (Filter.p_right st))))
    (kept (elems_from base0 stride 0 (Z.to_nat count))).

End Specs.

Arguments kept {user}.
Arguments rejected {user}.
Arguments order_preserving {user}.
Arguments compact_inv {user}.
Arguments stable_inv {user}.
Arguments partition_inv {user}.

(* ====================================================== *)
(** ** The C++ wrappers *)
(* ====================================================== *)

Module Cxx.

(** A defaulted argument: [None] when the caller leaves it out. *)
Definition defaulted {A : Type} (d : A) (arg : option A) : A :=
  match arg with
  | Some a => a
  | None => d
  end.

(** [fossil::algorithm::Filter::exec]: the type is a [std::string], never
    null; [algorithm_id] and [mode_id] default to ["auto"], [lanes] to 0. *)
Definition Filter_exec {user : Type}
           (malloc : Z -> option (list byte))
           (base : option (list byte)) (count : Z) (type_id : string)
           (pred : option (Filter.predicate user)) (u : user)
           (out : option Z)
           (algorithm_id mode_id : option string) (lanes : option Z)
  : option Filter.exec_result :=
  Filter.fossil_algorithm_filter_exec malloc base count (Some type_id)
    (Some (defaulted "auto"%string algorithm_id))
    (Some (defaulted "auto"%string mode_id))
    (defaulted 0 lanes) pred u out.

(** [fossil::algorithm::Reduce::exec]: [op_id] and [mode_id] default to
    ["auto"], [lanes] to 0, the reducer to [nullptr]. *)
Definition Reduce_exec (F : Reduce.float_ops) {user : Type}
           (base : option (list byte)) (count : Z) (type_id : string)
           (out_result : option (list byte))
           (op_id mode_id : option string) (lanes : option Z)
           (fn : option (Reduce.reducer user)) (u : user)
  : option Reduce.reduce_result :=
  Reduce.fossil_algorithm_reduce_exec F base count (Some type_id)
    (Some (defaulted "auto"%string op_id))
    (Some (defaulted "auto"%string mode_id))
    (defaulted 0 lanes) out_result fn u.

End Cxx.

(* ====================================================== *)
(** ** Specifications of the reductions *)
(* ====================================================== *)



(** Every type [reduce_min] and [reduce_max] have a branch for. *)
Definition minmax_types : list string :=
  [ "i8"; "i16"; "i32"; "i64"; "f32"; "f64" ]%string.

(** Every type [reduce_sum] has a branch for. *)
Definition sum_types : list string :=
  [ "i8"; "i16"; "i32"; "i64"; "u8"; "u16"; "u32"; "u64";
    "f32"; "f64" ]%string.


(** The lane arithmetic of [fossil_algorithm_reduce_exec] does not wrap:
    [count] and [lanes] are [size_t] values whose sum fits. *)
Definition lanes_fit (count lanes : Z) : Prop :=
  0 <= count < SIZE_MOD /\ 0 <= lanes /\ count + lanes <= SIZE_MOD.

(** The return of [fossil_algorithm_reduce_exec] after its loops. *)
Definition outcome_result (o : Reduce.outcome) : option Reduce.reduce_result :=
  match o with
  | Reduce.Next accum => Some (Reduce.mkReduce 0 (Some accum))
  | Reduce.Return st accum => Some (Reduce.mkReduce st (Some accum))
  | Reduce.Undefined => None
  end.

(** What the loops can leave when the body is the operator dispatch: an
    early return carries -3 and answers an unknown operator. *)
Definition guarded_outcome (op_id : string) (o : Reduce.outcome) : Prop :=
  match o with
  | Reduce.Next _ => True
  | Reduce.Return st _ => st = -3 /\ known_operator op_id = false
  | Reduce.Undefined => True
  end.




(* ====================================================== *)
(** ** Memory lemmas *)
(* ====================================================== *)

Lemma nth_error_load (m : list byte) (off n : Z) (i : nat) :
  nth_error (load m off n) i =
  if (i <? Z.to_nat n)%nat then nth_error m (Z.to_nat off + i) else None.
Proof.
  unfold load. rewrite nth_error_firstn.
  destruct (i <? Z.to_nat n)%nat; [apply nth_error_skipn | reflexivity].
Qed.

Lemma nth_error_store (m : list byte) (off : Z) (data : list byte) (i : nat) :
  (Z.to_nat off + length data <= length m)%nat ->
  nth_error (store m off data) i =
  if (i <? Z.to_nat off)%nat then nth_error m i
  else if (i <? Z.to_nat off + length data)%nat
       then nth_error data (i - Z.to_nat off)
       else nth_error m i.
Proof.
  intros Hb. unfold store.
  rewrite nth_error_app, length_firstn, Nat.min_l by lia.
  destruct (Nat.ltb_spec i (Z.to_nat off)).
  - rewrite nth_error_firstn.
    destruct (Nat.ltb_spec i (Z.to_nat off)); [reflexivity | lia].
  - rewrite nth_error_app.
    destruct (Nat.ltb_spec (i - Z.to_nat off) (length data));
      destruct (Nat.ltb_spec i (Z.to_nat off + length data)); try lia.
    + reflexivity.
    + rewrite nth_error_skipn. f_equal. lia.
Qed.

Lemma length_load (m : list byte) (off n : Z) :
  0 <= off -> 0 <= n -> off + n <= Z.of_nat (length m) ->
  length (load m off n) = Z.to_nat n.
Proof.
  intros. unfold load. rewrite length_firstn, length_skipn. lia.
Qed.

Lemma length_store (m : list byte) (off : Z) (data : list byte) :
  (Z.to_nat off + length data <= length m)%nat ->
  length (store m off data) = length m.
Proof.
  intros. unfold store.
  rewrite !length_app, length_firstn, length_skipn. lia.
Qed.

(** Pointwise comparison of byte lists built from [load] and [store]. *)
Ltac mem_pointwise :=
  apply nth_error_ext; intros ?i;
  repeat first [ rewrite nth_error_load
               | rewrite nth_error_store by lia
               | rewrite nth_error_skipn
               | rewrite nth_error_firstn ];
  repeat match goal with
         | |- context [Nat.ltb ?a ?b] => destruct (Nat.ltb_spec a b)
         end;
  try reflexivity; try lia; try (f_equal; lia).

Lemma load_store_same (m : list byte) (off : Z) (data : list byte) :
  (Z.to_nat off + length data <= length m)%nat ->
  load (store m off data) off (Z.of_nat (length data)) = data.
Proof.
  intros. mem_pointwise. symmetry. apply nth_error_None. lia.
Qed.

Lemma load_store_below (m : list byte) (off : Z) (data : list byte)
      (off' n : Z) :
  (Z.to_nat off + length data <= length m)%nat ->
  0 <= off' -> 0 <= n -> off' + n <= off ->
  load (store m off data) off' n = load m off' n.
Proof. intros. mem_pointwise. Qed.

Lemma load_store_above (m : list byte) (off : Z) (data : list byte)
      (off' n : Z) :
  (Z.to_nat off + length data <= length m)%nat ->
  0 <= off -> off + Z.of_nat (length data) <= off' ->
  load (store m off data) off' n = load m off' n.
Proof. intros. mem_pointwise. Qed.

Lemma skipn_store_above (m : list byte) (off : Z) (data : list byte) (k : nat) :
  (Z.to_nat off + length data <= length m)%nat ->
  (Z.to_nat off + length data <= k)%nat ->
  skipn k (store m off data) = skipn k m.
Proof. intros. mem_pointwise. Qed.

Lemma firstn_store_below (m : list byte) (off : Z) (data : list byte)
      (k : nat) :
  (Z.to_nat off + length data <= length m)%nat ->
  (k <= Z.to_nat off)%nat ->
  firstn k (store m off data) = firstn k m.
Proof. intros. mem_pointwise. Qed.

Lemma store_load_same (m : list byte) (off n : Z) :
  0 <= off -> 0 <= n -> off + n <= Z.of_nat (length m) ->
  store m off (load m off n) = m.
Proof.
  intros. assert (Hl := length_load m off n ltac:(lia) ltac:(lia) ltac:(lia)).
  apply nth_error_ext; intros i.
  rewrite nth_error_store by lia. rewrite nth_error_load, Hl.
  repeat match goal with
         | |- context [Nat.ltb ?a ?b] => destruct (Nat.ltb_spec a b)
         end; try reflexivity; try lia.
  f_equal; lia.
Qed.

Lemma load_skipn_eq (m1 m2 : list byte) (k : nat) (off n : Z) :
  skipn k m1 = skipn k m2 -> (k <= Z.to_nat off)%nat ->
  load m1 off n = load m2 off n.
Proof.
  intros Hs Hk. unfold load.
  replace (Z.to_nat off) with ((Z.to_nat off - k) + k)%nat by lia.
  rewrite <- !skipn_skipn, Hs. reflexivity.
Qed.

Lemma load_firstn_eq (m1 m2 : list byte) (k : nat) (off n : Z) :
  firstn k m1 = firstn k m2 -> (Z.to_nat off + Z.to_nat n <= k)%nat ->
  load m1 off n = load m2 off n.
Proof.
  intros Hf Hk.
  apply nth_error_ext; intros i. rewrite !nth_error_load.
  destruct (Nat.ltb_spec i (Z.to_nat n)); [| reflexivity].
  assert (E : forall m : list byte, nth_error m (Z.to_nat off + i) =
                        nth_error (firstn k m) (Z.to_nat off + i)).
  { intros m. rewrite nth_error_firstn.
    destruct (Nat.ltb_spec (Z.to_nat off + i) k); [reflexivity | lia]. }
  rewrite (E m1), (E m2), Hf. reflexivity.
Qed.

(* ====================================================== *)
(** ** Loop lemmas *)
(* ====================================================== *)

Lemma wrap_small (x : Z) : 0 <= x < SIZE_MOD -> wrap x = x.
Proof. intros. unfold wrap. apply Z.mod_small. assumption. Qed.

Lemma for_loop_app {S : Type} (body : Z -> S -> S) (n k : nat) :
  forall (i : Z) (s : S),
    for_loop (n + k) i body s =
    for_loop k (i + Z.of_nat n) body (for_loop n i body s).
Proof.
  induction n as [| n IH]; intros i s; cbn [for_loop Nat.add].
  - f_equal. lia.
  - rewrite IH. f_equal. lia.
Qed.

(** A property of (iterations done, state) carried through a counted loop. *)
Lemma for_loop_invariant {S : Type} (body : Z -> S -> S) (n : nat) :
  forall (P : nat -> S -> Prop) (i : Z) (s : S),
    P 0%nat s ->
    (forall j st, (j < n)%nat -> P j st ->
                  P (Datatypes.S j) (body (i + Z.of_nat j) st)) ->
    P n (for_loop n i body s).
Proof.
  induction n as [| n IH]; intros P i s H0 Hstep; cbn [for_loop].
  - exact H0.
  - apply (IH (fun j st => P (Datatypes.S j) st)).
    + specialize (Hstep 0%nat s ltac:(lia) H0).
      replace (i + Z.of_nat 0) with i in Hstep by lia. exact Hstep.
    + intros j st Hj HP.
      specialize (Hstep (Datatypes.S j) st ltac:(lia) HP).
      replace (i + 1 + Z.of_nat j) with (i + Z.of_nat (Datatypes.S j)) by lia.
      exact Hstep.
Qed.

Lemma for_range_split {S : Type} (body : Z -> S -> S) (a b c : Z) (s : S) :
  a <= b <= c ->
  for_range b c body (for_range a b body s) = for_range a c body s.
Proof.
  intros H. unfold for_range.
  replace (Z.to_nat (c - a)) with (Z.to_nat (b - a) + Z.to_nat (c - b))%nat
    by lia.
  rewrite for_loop_app. f_equal. lia.
Qed.

Lemma for_range_empty {S : Type} (body : Z -> S -> S) (a b : Z) (s : S) :
  b <= a -> for_range a b body s = s.
Proof.
  intros H. unfold for_range.
  replace (Z.to_nat (b - a)) with 0%nat by lia. reflexivity.
Qed.

Lemma chain_le (rs : list (Z * Z)) (a c : Z) : chain rs a c -> a <= c.
Proof. induction 1; lia. Qed.

(** Scanning the ranges of a chain one after the other is one scan. *)
Lemma chain_for_range {S : Type} (body : Z -> S -> S) (rs : list (Z * Z))
      (a c : Z) :
  chain rs a c ->
  forall s : S,
    fold_left (fun st r => for_range (fst r) (snd r) body st) rs s =
    for_range a c body s.
Proof.
  induction 1 as [a | a b c rs Hab Hch IH]; intros s; cbn [fold_left fst snd].
  - symmetry. apply for_range_empty. lia.
  - rewrite IH. apply for_range_split.
    apply chain_le in Hch. lia.
Qed.

Lemma lane_loop_collect_acc (n : nat) (count ls : Z) :
  forall (lane : Z) (acc : list (Z * Z)),
    lane_loop n lane count ls collect_range acc =
    acc ++ lane_loop n lane count ls collect_range [].
Proof.
  induction n as [| n IH]; intros lane acc; cbn [lane_loop].
  - symmetry. apply app_nil_r.
  - destruct (count <=? wrap (lane * ls)).
    + symmetry. apply app_nil_r.
    + rewrite IH. rewrite (IH _ (collect_range _ _ [])).
      unfold collect_range. rewrite app_assoc. reflexivity.
Qed.

(** The lane loop applies its body to the collected lane ranges, in order. *)
Lemma lane_loop_fold {S : Type} (body : Z -> Z -> S -> S) (n : nat)
      (count ls : Z) :
  forall (lane : Z) (s : S),
    lane_loop n lane count ls body s =
    fold_left (fun st r => body (fst r) (snd r) st)
              (lane_loop n lane count ls collect_range []) s.
Proof.
  induction n as [| n IH]; intros lane s; cbn [lane_loop].
  - reflexivity.
  - destruct (count <=? wrap (lane * ls)).
    + reflexivity.
    + rewrite lane_loop_collect_acc. unfold collect_range at 1.
      cbn [app fold_left fst snd]. apply IH.
Qed.

(** With a positive lane size and no overflow, the remaining lanes chain
    from the current start to [count]. *)
Lemma lane_loop_chain (count ls : Z) (n : nat) :
  0 < ls -> 0 <= count ->
  forall lane : Z,
    0 <= lane ->
    count <= (lane + Z.of_nat n) * ls ->
    (lane + Z.of_nat n) * ls < SIZE_MOD ->
    chain (lane_loop n lane count ls collect_range [])
          (Z.min (lane * ls) count) count.
Proof.
  intros Hls Hc. induction n as [| n IH]; intros lane Hl Hcov Hmax;
    cbn [lane_loop].
  - replace (Z.min (lane * ls) count) with count by lia. constructor.
  - assert (Hs : wrap (lane * ls) = lane * ls) by (apply wrap_small; nia).
    rewrite Hs.
    destruct (Z.leb_spec count (lane * ls)) as [Hge | Hlt].
    + replace (Z.min (lane * ls) count) with count by lia. constructor.
    + assert (He : wrap (lane * ls + ls) = lane * ls + ls)
        by (apply wrap_small; nia).
      rewrite He, lane_loop_collect_acc. unfold collect_range.
      cbn [app].
      replace (Z.min (lane * ls) count) with (lane * ls) by lia.
      replace (if count <? lane * ls + ls then count else lane * ls + ls)
        with (Z.min ((lane + 1) * ls) count)
        by (destruct (Z.ltb_spec count (lane * ls + ls)); lia).
      constructor; [lia |].
      apply IH; [lia | nia | nia].
Qed.

(** The clamped lane count and the lane size it yields. *)
Lemma clamp_lanes_range (count lanes : Z) :
  0 < count -> 0 <= lanes -> 1 <= clamp_lanes count lanes <= count.
Proof.
  intros. unfold clamp_lanes.
  destruct (Z.eqb_spec lanes 0);
    match goal with |- context [?a <? ?b] => destruct (Z.ltb_spec a b) end; lia.
Qed.

(** An empty array clamps every lane count to zero. *)
Lemma clamp_lanes_zero (lanes : Z) : 0 <= lanes -> clamp_lanes 0 lanes = 0.
Proof.
  intros. unfold clamp_lanes.
  destruct (Z.eqb_spec lanes 0);
    match goal with |- context [?a <? ?b] => destruct (Z.ltb_spec a b) end; lia.
Qed.

Lemma lane_size_bounds (count lanes : Z) :
  1 <= lanes <= count -> 2 * count <= SIZE_MOD ->
  let ls := wrap (count + lanes - 1) / lanes in
  0 < ls /\ count <= lanes * ls /\ lanes * ls < SIZE_MOD.
Proof.
  intros Hl Hc. cbv zeta.
  rewrite wrap_small by lia.
  assert (Hd := Z.div_mod (count + lanes - 1) lanes ltac:(lia)).
  assert (Hm := Z.mod_pos_bound (count + lanes - 1) lanes ltac:(lia)).
  assert (0 < (count + lanes - 1) / lanes)
    by (apply Z.div_str_pos; lia).
  repeat split; nia.
Qed.

(** The lane loop of the filter strategies is one scan of [0, count). *)
Lemma for_lanes_flat {S : Type} (body : Z -> S -> S) (count lanes : Z) (s : S) :
  1 <= lanes <= count -> 2 * count <= SIZE_MOD ->
  for_lanes count lanes (wrap (count + lanes - 1) / lanes)
            (fun start stop st => for_range start stop body st) s =
  for_range 0 count body s.
Proof.
  intros Hl Hc.
  destruct (lane_size_bounds count lanes Hl Hc) as (Hls & Hcov & Hmax).
  unfold for_lanes. rewrite lane_loop_fold.
  apply (chain_for_range body).
  replace 0 with (Z.min (0 * (wrap (count + lanes - 1) / lanes)) count) at 2
    by lia.
  apply lane_loop_chain; try lia; rewrite Z2Nat.id by lia; lia.
Qed.

(* ====================================================== *)
(** ** Elements of a buffer *)
(* ====================================================== *)

Lemma length_elems_from (m : list byte) (stride : Z) (n : nat) :
  forall lo, length (elems_from m stride lo n) = n.
Proof. induction n; intros; cbn [elems_from length]; auto. Qed.

Lemma elems_from_snoc (m : list byte) (stride : Z) (n : nat) :
  forall lo,
    elems_from m stride lo (S n) =
    elems_from m stride lo n ++ [elem_at m stride (lo + Z.of_nat n)].
Proof.
  induction n as [| n IH]; intros lo.
  - cbn [elems_from app]. replace (lo + Z.of_nat 0) with lo by lia. reflexivity.
  - change (elems_from m stride lo (S (S n)))
      with (elem_at m stride lo :: elems_from m stride (lo + 1) (S n)).
    rewrite IH. cbn [elems_from app].
    replace (lo + 1 + Z.of_nat n) with (lo + Z.of_nat (S n)) by lia.
    reflexivity.
Qed.

Lemma elems_from_ext (m1 m2 : list byte) (stride : Z) (n : nat) :
  forall lo,
    (forall i, lo <= i < lo + Z.of_nat n ->
               elem_at m1 stride i = elem_at m2 stride i) ->
    elems_from m1 stride lo n = elems_from m2 stride lo n.
Proof.
  induction n as [| n IH]; intros lo H; cbn [elems_from].
  - reflexivity.
  - f_equal; [apply H; lia | apply IH; intros; apply H; lia].
Qed.

Lemma skipn_eq_mono (m1 m2 : list byte) (k k' : nat) :
  skipn k m1 = skipn k m2 -> (k <= k')%nat -> skipn k' m1 = skipn k' m2.
Proof.
  intros H Hk. replace k' with ((k' - k) + k)%nat by lia.
  rewrite <- !skipn_skipn, H. reflexivity.
Qed.

(* ====================================================== *)
(** ** Filter: invariants of the compacting scans *)
(* ====================================================== *)

Import Filter.

Section Compaction.

Variable user : Type.
Variable pred : predicate user.
Variable u : user.
Variable base0 : list byte.
Variables count stride : Z.
Hypothesis Hstride : 0 <= stride.
Hypothesis Hcount : 0 <= count.
Hypothesis Hlen : count * stride <= Z.of_nat (length base0).

Lemma kept_snoc (l : list (list byte)) (e : list byte) :
  kept pred u (l ++ [e]) = kept pred u l ++ (if pred e u then [e] else []).
Proof. unfold kept. rewrite filter_app. reflexivity. Qed.

Lemma compact_inv_init : compact_inv pred u base0 stride 0 (base0, 0).
Proof. repeat split; cbn; lia. Qed.

Lemma compact_inv_elem (j : nat) (st : cursor) :
  compact_inv pred u base0 stride j st ->
  elem_at (fst st) stride (Z.of_nat j) = elem_at base0 stride (Z.of_nat j).
Proof.
  intros (_ & Hw & _ & Hsk). unfold elem_at.
  apply (load_skipn_eq _ _ _ _ _ Hsk). nia.
Qed.

Lemma lane_compact_body_inv (j : nat) (st : cursor) :
  Z.of_nat j < count ->
  compact_inv pred u base0 stride j st ->
  compact_inv pred u base0 stride (S j)
              (lane_compact_body stride pred u (Z.of_nat j) st).
Proof.
  intros Hj Hinv. pose proof (compact_inv_elem j st Hinv) as He.
  destruct Hinv as (Hl & Hw & Hel & Hsk). destruct st as [b w].
  cbn [fst snd] in *. unfold lane_compact_body, compact_inv.
  rewrite elems_from_snoc, kept_snoc, Z.add_0_l, He.
  destruct (pred (elem_at base0 stride (Z.of_nat j)) u); cbn [fst snd].
  - unfold memmove. fold (elem_at b stride (Z.of_nat j)). rewrite He.
    set (e := elem_at base0 stride (Z.of_nat j)).
    assert (Hle : length e = Z.to_nat stride)
      by (apply length_load; nia).
    assert (Hin : (Z.to_nat (w * stride) + length e <= length b)%nat) by nia.
    split; [| split; [| split]].
    + rewrite length_store by exact Hin. exact Hl.
    + lia.
    + replace (Z.to_nat (w + 1)) with (S (Z.to_nat w)) by lia.
      rewrite elems_from_snoc, Z.add_0_l, Z2Nat.id by lia.
      f_equal.
      * rewrite <- Hel. apply elems_from_ext. intros i Hi.
        unfold elem_at. apply load_store_below; try exact Hin; nia.
      * f_equal. unfold elem_at.
        pose proof (load_store_same b (w * stride) e Hin) as Hs.
        replace (Z.of_nat (length e)) with stride in Hs by lia.
        exact Hs.
    + rewrite skipn_store_above by (try exact Hin; nia).
      apply (skipn_eq_mono _ _ _ _ Hsk). nia.
  - rewrite app_nil_r. repeat split; try assumption; lia.
Qed.

(** In bounds the guarded copy of [filter_inplace] and the unguarded copy
    of [filter_lane_compact] write the same bytes: a copy onto itself
    changes nothing. *)
Lemma inplace_body_lane_compact (j : nat) (st : cursor) :
  Z.of_nat j < count ->
  compact_inv pred u base0 stride j st ->
  inplace_body stride pred u (Z.of_nat j) st =
  lane_compact_body stride pred u (Z.of_nat j) st.
Proof.
  intros Hj (Hl & Hw & _ & _). destruct st as [b w]. cbn [fst snd] in *.
  unfold inplace_body, lane_compact_body.
  destruct (pred (elem_at b stride (Z.of_nat j)) u); [| reflexivity].
  destruct (Z.eqb_spec w (Z.of_nat j)) as [-> | Hne]; cbn [negb];
    [| reflexivity].
  unfold memmove. rewrite store_load_same by nia. reflexivity.
Qed.

Lemma for_range_lane_compact_inv :
  compact_inv pred u base0 stride (Z.to_nat count)
              (for_range 0 count (lane_compact_body stride pred u) (base0, 0)).
Proof.
  unfold for_range. rewrite Z.sub_0_r.
  apply for_loop_invariant.
  - exact compact_inv_init.
  - intros j st Hj Hinv. rewrite Z.add_0_l.
    apply lane_compact_body_inv; [lia | exact Hinv].
Qed.

Lemma filter_inplace_inv :
  compact_inv pred u base0 stride (Z.to_nat count)
              (filter_inplace base0 count stride pred u).
Proof.
  unfold filter_inplace, for_range. rewrite Z.sub_0_r.
  apply for_loop_invariant.
  - exact compact_inv_init.
  - intros j st Hj Hinv. rewrite Z.add_0_l.
    rewrite inplace_body_lane_compact by (try exact Hinv; lia).
    apply lane_compact_body_inv; [lia | exact Hinv].
Qed.

(** The scratch-copy scan: [t] is the scratch buffer, of the size asked
    from [malloc]. *)
Variable tmp0 : list byte.
Hypothesis Htmp : Z.of_nat (length tmp0) = count * stride.

Lemma stable_body_inv (j : nat) (st : cursor) :
  Z.of_nat j < count ->
  stable_inv pred u base0 stride tmp0 j st ->
  stable_inv pred u base0 stride tmp0 (S j)
             (stable_body base0 stride pred u (Z.of_nat j) st).
Proof.
  intros Hj (Hl & Hw & Hel). destruct st as [t k].
  cbn [fst snd] in *. unfold stable_body, stable_inv.
  rewrite elems_from_snoc, kept_snoc, Z.add_0_l.
  destruct (pred (elem_at base0 stride (Z.of_nat j)) u); cbn [fst snd].
  - unfold memcpy. fold (elem_at base0 stride (Z.of_nat j)).
    set (e := elem_at base0 stride (Z.of_nat j)).
    assert (Hle : length e = Z.to_nat stride)
      by (apply length_load; nia).
    assert (Hin : (Z.to_nat (k * stride) + length e <= length t)%nat) by nia.
    split; [| split].
    + rewrite length_store by exact Hin. exact Hl.
    + lia.
    + replace (Z.to_nat (k + 1)) with (S (Z.to_nat k)) by lia.
      rewrite elems_from_snoc, Z.add_0_l, Z2Nat.id by lia.
      f_equal.
      * rewrite <- Hel. apply elems_from_ext. intros i Hi.
        unfold elem_at. apply load_store_below; try exact Hin; nia.
      * f_equal. unfold elem_at.
        pose proof (load_store_same t (k * stride) e Hin) as Hs.
        replace (Z.of_nat (length e)) with stride in Hs by lia.
        exact Hs.
  - rewrite app_nil_r. repeat split; try assumption; lia.
Qed.

Lemma for_range_stable_inv :
  stable_inv pred u base0 stride tmp0 (Z.to_nat count)
             (for_range 0 count (stable_body base0 stride pred u) (tmp0, 0)).
Proof.
  unfold for_range. rewrite Z.sub_0_r.
  apply for_loop_invariant.
  - repeat split; cbn; lia.
  - intros j st Hj Hinv. rewrite Z.add_0_l.
    apply stable_body_inv; [lia | exact Hinv].
Qed.

(** Copying the first [k] scratch elements back over the buffer. *)
Lemma copy_back_inv (st : cursor) :
  stable_inv pred u base0 stride tmp0 (Z.to_nat count) st ->
  compact_inv pred u base0 stride (Z.to_nat count)
              (memcpy base0 0 (fst st) 0 (snd st * stride), snd st).
Proof.
  intros (Hl & Hw & Hel). destruct st as [t k]. cbn [fst snd] in *.
  unfold compact_inv, memcpy. cbn [fst snd].
  assert (Hll : length (load t 0 (k * stride)) = Z.to_nat (k * stride))
    by (apply length_load; nia).
  assert (Hin : (Z.to_nat 0 + length (load t 0 (k * stride))
                 <= length base0)%nat) by nia.
  split; [| split; [| split]].
  - apply length_store. exact Hin.
  - lia.
  - rewrite <- Hel. apply elems_from_ext. intros i Hi. unfold elem_at.
    transitivity (load (load t 0 (k * stride)) (i * stride) stride).
    + apply (load_firstn_eq _ _ (Z.to_nat (k * stride))); [| nia].
      set (L := load t 0 (k * stride)) in *. mem_pointwise.
    + apply (load_firstn_eq _ _ (Z.to_nat (k * stride))); [| nia].
      mem_pointwise.
  - apply skipn_store_above; [exact Hin | lia].
Qed.

End Compaction.

(* ====================================================== *)
(** ** Filter: invariant of the two-pointer partition *)
(* ====================================================== *)

Lemma elems_from_app (m : list byte) (stride : Z) (n1 n2 : nat) :
  forall lo,
    elems_from m stride lo (n1 + n2) =
    elems_from m stride lo n1 ++ elems_from m stride (lo + Z.of_nat n1) n2.
Proof.
  induction n1 as [| n1 IH]; intros lo; cbn [elems_from Nat.add app].
  - replace (lo + Z.of_nat 0) with lo by lia. reflexivity.
  - rewrite IH.
    replace (lo + 1 + Z.of_nat n1) with (lo + Z.of_nat (S n1)) by lia.
    reflexivity.
Qed.

Section Partition.

Variable user : Type.
Variable pred : predicate user.
Variable u : user.
Variable base0 : list byte.
Variables count stride : Z.
Hypothesis Hstride : 0 <= stride.
Hypothesis Hcount : 0 <= count.
Hypothesis Hlen : count * stride <= Z.of_nat (length base0).

Lemma partition_inv_init :
  partition_inv pred u base0 count stride (mkPartition base0 0 count).
Proof.
  unfold partition_inv; cbn [p_base p_left p_right].
  repeat split; try lia.
  - cbn. constructor.
  - apply Permutation_refl.
Qed.

Lemma kept_app (l1 l2 : list (list byte)) :
  kept pred u (l1 ++ l2) = kept pred u l1 ++ kept pred u l2.
Proof. unfold kept. apply filter_app. Qed.

Lemma partition_step_inv (st : partition_state) :
  partition_inv pred u base0 count stride st -> p_left st < p_right st ->
  partition_inv pred u base0 count stride (partition_step stride pred u st).
Proof.
  intros (Hl & Hlr & Hrc & Hall & Hperm) Hlt.
  destruct st as [b l r]; cbn [p_base p_left p_right] in *.
  unfold partition_step; cbn [p_base p_left p_right].
  destruct (pred (elem_at b stride l) u) eqn:Hp.
  - (* the element stays, [left] advances *)
    unfold partition_inv; cbn [p_base p_left p_right].
    repeat split; try assumption; try lia.
    replace (Z.to_nat (l + 1)) with (S (Z.to_nat l)) by lia.
    rewrite elems_from_snoc, Z.add_0_l, Z2Nat.id by lia.
    apply Forall_app. split; [exact Hall |].
    constructor; [exact Hp | constructor].
  - (* the last unexamined element is copied over it *)
    unfold partition_inv; cbn [p_base p_left p_right].
    set (y := load b ((r - 1) * stride) stride).
    assert (Hly : length y = Z.to_nat stride)
      by (apply length_load; nia).
    assert (Hin : (Z.to_nat (l * stride) + length y <= length b)%nat) by nia.
    unfold memmove. fold y.
    assert (Hbelow : elems_from (store b (l * stride) y) stride 0 (Z.to_nat l)
                     = elems_from b stride 0 (Z.to_nat l)).
    { apply elems_from_ext. intros i Hi. unfold elem_at.
      apply load_store_below; try exact Hin; nia. }
    split; [| split; [| split; [| split]]].
    + rewrite length_store by exact Hin. exact Hl.
    + lia.
    + lia.
    + rewrite Hbelow. exact Hall.
    + eapply Permutation_trans; [| exact Hperm].
      replace (Z.to_nat r) with (Z.to_nat l + S (Z.to_nat (r - 1 - l)))%nat
        by lia.
      replace (Z.to_nat (r - 1))
        with (Z.to_nat l + Z.to_nat (r - 1 - l))%nat by lia.
      rewrite !elems_from_app, !kept_app, Hbelow, Z.add_0_l, Z2Nat.id by lia.
      apply Permutation_app_head.
      destruct (Z.to_nat (r - 1 - l)) as [| k] eqn:Hk.
      * (* [left] was the last unexamined index *)
        cbn [elems_from]. unfold kept at 2. cbn [filter]. rewrite Hp.
        apply Permutation_refl.
      * set (b' := store b (l * stride) y) in *.
        change (elems_from b stride l (S (S k)))
          with ([elem_at b stride l] ++ elems_from b stride (l + 1) (S k)).
        rewrite (elems_from_snoc b stride k (l + 1)).
        change (elems_from b' stride l (S k))
          with ([elem_at b' stride l] ++ elems_from b' stride (l + 1) k).
        rewrite !kept_app.
        assert (Hx : kept pred u [elem_at b stride l] = []).
        { unfold kept. cbn [filter]. rewrite Hp. reflexivity. }
        assert (Hy : elem_at b' stride l = y).
        { unfold elem_at, b'.
          pose proof (load_store_same b (l * stride) y Hin) as Hs.
          replace (Z.of_nat (length y)) with stride in Hs by lia.
          exact Hs. }
        assert (Hm : elems_from b' stride (l + 1) k
                     = elems_from b stride (l + 1) k).
        { apply elems_from_ext. intros i Hi. unfold elem_at, b'.
          apply load_store_above; try exact Hin; nia. }
        assert (Hlast : elem_at b stride (l + 1 + Z.of_nat k) = y).
        { unfold elem_at, y. f_equal. f_equal. lia. }
        rewrite Hx, Hy, Hm, Hlast. cbn [app].
        apply Permutation_app_comm.
Qed.

(** The loop runs until [left] meets [right]; [n] iterations suffice when
    [right - left <= n]. *)
Lemma partition_loop_inv (n : nat) :
  forall st,
    partition_inv pred u base0 count stride st ->
    p_right st - p_left st <= Z.of_nat n ->
    partition_inv pred u base0 count stride
                  (partition_loop n stride pred u st) /\
    p_left (partition_loop n stride pred u st) =
    p_right (partition_loop n stride pred u st).
Proof.
  induction n as [| n IH]; intros st Hinv Hn; cbn [partition_loop].
  - split; [exact Hinv |]. destruct Hinv as (_ & ? & _). lia.
  - destruct (Z.ltb_spec (p_left st) (p_right st)) as [Hlt | Hge].
    + apply IH.
      * apply partition_step_inv; assumption.
      * unfold partition_step.
        destruct (pred _ u); cbn [p_left p_right]; lia.
    + split; [exact Hinv |]. destruct Hinv as (_ & ? & _). lia.
Qed.

Lemma kept_all (l : list (list byte)) :
  Forall (fun e => pred e u = true) l -> kept pred u l = l.
Proof.
  induction 1 as [| e l He _ IH]; unfold kept in *; cbn [filter].
  - reflexivity.
  - rewrite He, IH. reflexivity.
Qed.

Lemma filter_partition_prefix :
  let r := filter_partition base0 count stride pred u in
  Permutation (elements (fst r) stride (snd r))
              (kept pred u (elements base0 stride count)) /\
  snd r = Z.of_nat (length (kept pred u (elements base0 stride count))).
Proof.
  cbv zeta. unfold filter_partition, elements. cbn [fst snd].
  destruct (partition_loop_inv (Z.to_nat count) _ partition_inv_init)
    as ((Hl & Hlr & Hrc & Hall & Hperm) & Heq);
    [cbn [p_left p_right]; lia |].
  set (st := partition_loop _ _ _ _ _) in *.
  rewrite <- Heq in Hperm. rewrite (kept_all _ Hall) in Hperm.
  split; [exact Hperm |].
  apply Permutation_length in Hperm.
  rewrite length_elems_from in Hperm. lia.
Qed.

End Partition.

(* ====================================================== *)
(** ** Filter: what the compacting strategies return *)
(* ====================================================== *)

Lemma buffer_ok_count (base : list byte) (count stride : Z) :
  buffer_ok base count stride -> count <= PTRDIFF_MAX.
Proof. intros (Hs & Hc & Hlen & Hmax). nia. Qed.

Lemma count_doubles (count : Z) : count <= PTRDIFF_MAX -> 2 * count <= SIZE_MOD.
Proof. unfold PTRDIFF_MAX, SIZE_MOD, SIZE_BITS. lia. Qed.

(** With at least one element the lane strategies are the plain scans. *)
Lemma filter_lane_compact_scan (user : Type) (pred : predicate user) (u : user)
      (base : list byte) (count stride lanes : Z) :
  0 < count -> count <= PTRDIFF_MAX -> 0 <= lanes ->
  filter_lane_compact base count stride lanes pred u =
  Some (for_range 0 count (lane_compact_body stride pred u) (base, 0)).
Proof.
  intros Hc Hmax Hl. unfold filter_lane_compact, lane_size_of.
  pose proof (clamp_lanes_range count lanes Hc Hl) as Hcl.
  destruct (Z.eqb_spec (clamp_lanes count lanes) 0); [lia |].
  f_equal. apply for_lanes_flat; [exact Hcl | apply count_doubles, Hmax].
Qed.

Lemma filter_lane_stable_scan (user : Type) (pred : predicate user) (u : user)
      (malloc : Z -> option (list byte))
      (base : list byte) (count stride lanes : Z) :
  0 < count -> count <= PTRDIFF_MAX -> 0 <= lanes ->
  filter_lane_stable malloc base count stride lanes pred u =
  Some (filter_stable malloc base count stride pred u).
Proof.
  intros Hc Hmax Hl. unfold filter_lane_stable, filter_stable, lane_size_of.
  pose proof (clamp_lanes_range count lanes Hc Hl) as Hcl.
  destruct (malloc (wrap (count * stride))) as [tmp |]; [| reflexivity].
  destruct (Z.eqb_spec (clamp_lanes count lanes) 0); [lia |].
  rewrite for_lanes_flat by (try exact Hcl; apply count_doubles, Hmax).
  destruct (for_range 0 count (stable_body base stride pred u) (tmp, 0)).
  reflexivity.
Qed.

Section Strategies.

Variable user : Type.
Variable pred : predicate user.
Variable u : user.
Variable base : list byte.
Variables count stride : Z.
Hypothesis Hbuf : buffer_ok base count stride.

Lemma compact_inv_final (r : cursor) :
  compact_inv pred u base stride (Z.to_nat count) r ->
  order_preserving pred u base count stride r /\ tail_untouched base stride r.
Proof.
  intros (Hl & Hw & Hel & Hsk).
  unfold order_preserving, tail_untouched, elements.
  repeat split.
  - exact Hel.
  - rewrite <- Hel, length_elems_from. lia.
  - exact Hl.
  - intros off Hoff.
    replace off
      with (Z.to_nat (snd r * stride) + (off - Z.to_nat (snd r * stride)))%nat
      by lia.
    rewrite <- !nth_error_skipn, Hsk. reflexivity.
Qed.

Lemma filter_inplace_final :
  order_preserving pred u base count stride
                   (filter_inplace base count stride pred u) /\
  tail_untouched base stride (filter_inplace base count stride pred u).
Proof.
  destruct Hbuf as (Hs & Hc & Hlen & _).
  apply compact_inv_final, filter_inplace_inv; lia.
Qed.

Lemma malloc_size_exact :
  wrap (count * stride) = count * stride.
Proof.
  destruct Hbuf as (Hs & Hc & Hlen & Hmax).
  apply wrap_small. unfold PTRDIFF_MAX, SIZE_MOD, SIZE_BITS in *. nia.
Qed.

Lemma filter_stable_final (malloc : Z -> option (list byte)) :
  malloc_ok malloc -> malloc (wrap (count * stride)) <> None ->
  order_preserving pred u base count stride
                   (filter_stable malloc base count stride pred u) /\
  tail_untouched base stride (filter_stable malloc base count stride pred u).
Proof.
  intros Hm Hsome. destruct Hbuf as (Hs & Hc & Hlen & Hmax).
  unfold filter_stable.
  destruct (malloc (wrap (count * stride))) as [tmp |] eqn:Ht; [| congruence].
  apply Hm in Ht. rewrite malloc_size_exact in Ht.
  assert (Hs0 : 0 <= stride) by lia.
  assert (Htmp : Z.of_nat (length tmp) = count * stride) by nia.
  assert (Hinv : stable_inv pred u base stride tmp (Z.to_nat count)
                   (for_range 0 count (stable_body base stride pred u) (tmp, 0)))
    by (apply for_range_stable_inv; assumption).
  destruct (for_range 0 count (stable_body base stride pred u) (tmp, 0))
    as [tmp' k] eqn:Hscan.
  apply compact_inv_final.
  apply (copy_back_inv user pred u base count stride) with (tmp0 := tmp)
                                                         (st := (tmp', k));
    assumption.
Qed.

Lemma filter_stable_tail (malloc : Z -> option (list byte)) :
  malloc_ok malloc ->
  tail_untouched base stride (filter_stable malloc base count stride pred u).
Proof.
  intros Hm.
  destruct (malloc (wrap (count * stride))) as [tmp |] eqn:Ht.
  - apply filter_stable_final; [exact Hm | congruence].
  - unfold filter_stable. rewrite Ht. split; reflexivity.
Qed.

Lemma filter_lane_compact_final (lanes : Z) (r : cursor) :
  0 <= lanes ->
  filter_lane_compact base count stride lanes pred u = Some r ->
  order_preserving pred u base count stride r /\ tail_untouched base stride r.
Proof.
  intros Hl Hr. destruct Hbuf as (Hs & Hc & Hlen & Hmax).
  destruct (Z.eq_dec count 0) as [-> | Hne].
  - unfold filter_lane_compact in Hr.
    rewrite clamp_lanes_zero in Hr by exact Hl. discriminate Hr.
  - rewrite filter_lane_compact_scan in Hr
      by (try apply (buffer_ok_count base count stride Hbuf); lia).
    injection Hr as <-. apply compact_inv_final.
    apply for_range_lane_compact_inv; lia.
Qed.

End Strategies.

(* ====================================================== *)
(** ** Lane ranges *)
(* ====================================================== *)

Lemma for_loop_indices (n : nat) :
  forall (i : Z) (acc : list Z),
    0 <= i ->
    for_loop n i snoc_index acc = acc ++ map Z.of_nat (seq (Z.to_nat i) n).
Proof.
  induction n as [| n IH]; intros i acc Hi; cbn [for_loop seq map].
  - symmetry. apply app_nil_r.
  - rewrite IH by lia. unfold snoc_index. rewrite <- app_assoc. cbn [app].
    rewrite Z2Nat.id by lia.
    replace (Z.to_nat (i + 1)) with (S (Z.to_nat i)) by lia. reflexivity.
Qed.

Lemma range_indices_seq (a b : Z) :
  0 <= a ->
  range_indices (a, b) = map Z.of_nat (seq (Z.to_nat a) (Z.to_nat (b - a))).
Proof.
  intros Ha. unfold range_indices, for_range. cbn [fst snd].
  apply (for_loop_indices _ a [] Ha).
Qed.

(** The ranges of a chain enumerate every index between its ends once,
    in increasing order. *)
Lemma chain_indices (rs : list (Z * Z)) (a c : Z) :
  chain rs a c -> 0 <= a ->
  flat_map range_indices rs =
  map Z.of_nat (seq (Z.to_nat a) (Z.to_nat (c - a))).
Proof.
  induction 1 as [a | a b c rs Hab Hch IH]; intros Ha; cbn [flat_map].
  - rewrite Z.sub_diag. reflexivity.
  - pose proof (chain_le _ _ _ Hch) as Hbc.
    rewrite IH by lia. rewrite range_indices_seq by lia.
    rewrite <- map_app. f_equal.
    replace (Z.to_nat (c - a)) with (Z.to_nat (b - a) + Z.to_nat (c - b))%nat
    by lia.
    rewrite seq_app. f_equal. f_equal. lia.
Qed.

Lemma lane_ranges_cover (count lanes : Z) :
  1 <= lanes <= count -> count <= PTRDIFF_MAX ->
  flat_map range_indices
           (lane_ranges count lanes (wrap (count + lanes - 1) / lanes)) =
  map Z.of_nat (seq 0 (Z.to_nat count)).
Proof.
  intros Hl Hc.
  assert (Hd : 2 * count <= SIZE_MOD)
    by (unfold PTRDIFF_MAX, SIZE_MOD, SIZE_BITS in *; lia).
  destruct (lane_size_bounds count lanes Hl Hd) as (Hls & Hcov & Hmax).
  set (ls := wrap (count + lanes - 1) / lanes) in *.
  assert (Hch : chain (lane_ranges count lanes ls) 0 count).
  { unfold lane_ranges, for_lanes.
    replace 0 with (Z.min (0 * ls) count) at 2 by lia.
    apply lane_loop_chain; try lia; rewrite Z2Nat.id by lia; lia. }
  rewrite (chain_indices _ _ _ Hch) by lia.
  rewrite Z.sub_0_r. reflexivity.
Qed.

(* ====================================================== *)
(** ** Filter: the compaction strategies *)
(* ====================================================== *)

Import Cases.

Lemma arr_1_to_6_ok : buffer_ok arr_1_to_6 6 4.
Proof. unfold buffer_ok, PTRDIFF_MAX. cbn. lia. Qed.

Lemma malloc_zeroed_ok : malloc_ok malloc_zeroed.
Proof.
  intros n t H. unfold malloc_zeroed in H. injection H as <-.
  apply repeat_length.
Qed.

Lemma resolve_no_dry_run (algorithm_id mode_id : string) (lanes : Z) :
  mode_id <> "dry-run"%string ->
  resolve_algorithm algorithm_id mode_id lanes =
  if streq algorithm_id "auto" then
    if streq mode_id "lane" || (1 <? lanes)
    then "lane-compact"%string else "inplace"%string
  else algorithm_id.
Proof.
  intros H. unfold resolve_algorithm, streq.
  apply String.eqb_neq in H. rewrite H. reflexivity.
Qed.

(** C1 (the code departs from the specification).  The claim covers every
    element count.  On an empty array ([count = 0]) the two lane
    strategies clamp the lane count to zero and divide by it:
    [filter_lane_compact], and [filter_lane_stable] once its allocation has
    succeeded, have no defined result, for every buffer, predicate and
    lane count, and neither has a call of the entry point that asks for
    ["lane-compact"].  The sibling strategies [filter_inplace] and
    [filter_stable] return the buffer as it was and the count 0 there, the
    order-preserving answer. *)
Theorem C1_lane_strategies_empty_array
        (user : Type) (pred : predicate user) (u : user)
        (malloc : Z -> option (list byte))
        (base : list byte) (stride lanes : Z)
        (type_id mode_id : option string) (out : option Z) :
  0 <= lanes ->
  filter_lane_compact base 0 stride lanes pred u = None /\
  (malloc (wrap (0 * stride)) <> None ->
   filter_lane_stable malloc base 0 stride lanes pred u = None) /\
  (fossil_algorithm_filter_type_sizeof type_id <> 0 ->
   mode_id <> Some "dry-run"%string ->
   fossil_algorithm_filter_exec malloc (Some base) 0 type_id
     (Some "lane-compact"%string) mode_id lanes (Some pred) u out = None) /\
  filter_inplace base 0 stride pred u = (base, 0) /\
  filter_stable malloc base 0 stride pred u = (base, 0) /\
  order_preserving pred u base 0 stride (base, 0).
Proof.
  intros Hl.
  assert (Hcompact : filter_lane_compact base 0 stride lanes pred u = None).
  { unfold filter_lane_compact.
    rewrite clamp_lanes_zero by exact Hl. reflexivity. }
  split; [exact Hcompact |]. split; [| split; [| split; [| split]]].
  - intros Hsome. unfold filter_lane_stable.
    rewrite clamp_lanes_zero by exact Hl.
    destruct (malloc (wrap (0 * stride))); [reflexivity | contradiction].
  - intros Hty Hmode. unfold fossil_algorithm_filter_exec.
    destruct (Z.eqb_spec (fossil_algorithm_filter_type_sizeof type_id) 0)
      as [E | _]; [contradiction |].
    cbv zeta. rewrite resolve_no_dry_run
      by (destruct mode_id; [congruence | discriminate]).
    change (streq "lane-compact" "auto") with false. cbv iota.
    match goal with
    | |- context [dispatch malloc "lane-compact" ?b ?c ?st ?l ?p ?uu] =>
        change (dispatch malloc "lane-compact" b c st l p uu)
          with (ran (filter_lane_compact b c st l p uu))
    end.
    unfold filter_lane_compact.
    rewrite clamp_lanes_zero by exact Hl. reflexivity.
  - reflexivity.
  - unfold filter_stable.
    destruct (malloc (wrap (0 * stride))); reflexivity.
  - split; reflexivity.
Qed.

(** C1 at the empty array: a request for ["lane-compact"] is a division by
    zero. *)
Lemma C1_lane_strategies_empty_array_witness :
  0 <= 0 /\
  fossil_algorithm_filter_exec malloc_zeroed (Some []) 0 (Some "i32"%string)
    (Some "lane-compact"%string) None 0 (Some keep_even) tt (Some 0) = None.
Proof.
  assert (H : 0 <= 0) by lia.
  split; [exact H |].
  apply (proj1 (proj2 (proj2
           (C1_lane_strategies_empty_array unit keep_even tt malloc_zeroed
              [] 4 0 (Some "i32"%string) None (Some 0) H)))).
  - cbn. lia.
  - discriminate.
Defined.

(** X23.  For every array of [count] elements and every predicate:
    [filter_inplace] is order-preserving; [filter_stable] is when its scratch
    allocation succeeds, and returns 0 with the buffer as it was when it
    fails; [filter_lane_compact] and [filter_lane_stable] (the latter when
    its allocation succeeds) return and are order-preserving for every lane
    count when the array has at least one element.
    Order-preserving: the first [k] elements of the buffer are the elements
    satisfying the predicate, in their original order, and the returned [k]
    is their number.  On [1,2,3,4,5,6] with [keep_even] each of the four
    strategies leaves the prefix [2,4,6] and returns 3. *)
Theorem compaction_order_preserving :
  (forall (user : Type) (pred : predicate user) (u : user)
          (base : list byte) (count stride : Z),
      buffer_ok base count stride ->
      order_preserving pred u base count stride
                       (filter_inplace base count stride pred u) /\
      (forall malloc,
          malloc_ok malloc -> malloc (wrap (count * stride)) <> None ->
          order_preserving pred u base count stride
                           (filter_stable malloc base count stride pred u)) /\
      (forall malloc,
          malloc (wrap (count * stride)) = None ->
          filter_stable malloc base count stride pred u = (base, 0)) /\
      (forall lanes,
          0 < count -> 0 <= lanes ->
          exists r,
            filter_lane_compact base count stride lanes pred u = Some r /\
            order_preserving pred u base count stride r) /\
      (forall malloc lanes,
          0 < count -> 0 <= lanes ->
          malloc_ok malloc -> malloc (wrap (count * stride)) <> None ->
          exists r,
            filter_lane_stable malloc base count stride lanes pred u = Some r /\
            order_preserving pred u base count stride r)) /\
  (let expected (r : cursor) :=
       elements (fst r) 4 (snd r) = map (encode_le 4) [2; 4; 6] /\ snd r = 3 in
   expected (filter_inplace arr_1_to_6 6 4 keep_even tt) /\
   expected (filter_stable malloc_zeroed arr_1_to_6 6 4 keep_even tt) /\
   (forall lanes, 0 <= lanes ->
      exists r,
        filter_lane_compact arr_1_to_6 6 4 lanes keep_even tt = Some r /\
                expected r) /\
   (forall lanes, 0 <= lanes ->
      exists r, filter_lane_stable malloc_zeroed arr_1_to_6 6 4 lanes
                                   keep_even tt = Some r /\
                expected r)).
Proof.
  split.
  - intros user pred u base count stride Hbuf.
    pose proof (buffer_ok_count _ _ _ Hbuf) as Hmax.
    split; [apply filter_inplace_final; exact Hbuf |].
    split; [intros; apply filter_stable_final; assumption |].
    split; [intros malloc Hnone; unfold filter_stable; rewrite Hnone;
            reflexivity |].
    split.
    + intros lanes Hc Hl. eexists. split.
      * apply filter_lane_compact_scan; assumption.
      * destruct Hbuf as (Hs & Hc0 & Hlen & _).
        apply compact_inv_final, for_range_lane_compact_inv; lia.
    + intros malloc lanes Hc Hl Hm Hsome. eexists. split.
      * apply filter_lane_stable_scan; assumption.
      * apply filter_stable_final; assumption.
  - cbv zeta. split; [vm_compute; auto |]. split; [vm_compute; auto |].
    pose proof (buffer_ok_count _ _ _ arr_1_to_6_ok) as Hmax.
    split; intros lanes Hl; eexists; (split; [| shelve]).
    + apply filter_lane_compact_scan; [lia | exact Hmax | exact Hl].
    + apply filter_lane_stable_scan; [lia | exact Hmax | exact Hl].
    Unshelve. all: vm_compute; auto.
Qed.

(** The general part at the array of the test suite. *)
Lemma compaction_order_preserving_witness :
  buffer_ok arr_1_to_6 6 4 /\
  order_preserving keep_even tt arr_1_to_6 6 4
                   (filter_inplace arr_1_to_6 6 4 keep_even tt) /\
  order_preserving keep_even tt arr_1_to_6 6 4
                   (filter_stable malloc_zeroed arr_1_to_6 6 4 keep_even tt) /\
  (exists r, filter_lane_compact arr_1_to_6 6 4 2 keep_even tt = Some r /\
             order_preserving keep_even tt arr_1_to_6 6 4 r) /\
  (exists r, filter_lane_stable malloc_zeroed arr_1_to_6 6 4 2 keep_even tt
             = Some r /\
             order_preserving keep_even tt arr_1_to_6 6 4 r).
Proof.
  destruct (proj1 compaction_order_preserving unit keep_even tt
                  arr_1_to_6 6 4 arr_1_to_6_ok) as (H1 & H2 & _ & H3 & H4).
  split; [exact arr_1_to_6_ok |].
  split; [exact H1 |].
  split; [apply H2; [exact malloc_zeroed_ok | discriminate] |].
  split; [apply H3; lia |].
  apply H4; [lia | lia | exact malloc_zeroed_ok | discriminate].
Defined.

(** C7.  For every buffer, predicate and lane count [lanes] in [1, count]
    (an array that fits in memory has at most [PTRDIFF_MAX] elements): the
    lane ranges the lane strategies compute enumerate the indices
    [0, 1, ..., count-1], each exactly once and in order, so they partition
    [0, count) without gap or overlap; and [filter_lane_compact] and
    [filter_lane_stable] return the same buffer and the same kept count as
    with [lanes = 1]. *)
Theorem C7_lane_partition_independent
        (user : Type) (pred : predicate user) (u : user)
        (malloc : Z -> option (list byte))
        (base : list byte) (count stride lanes : Z) :
  1 <= lanes <= count -> count <= PTRDIFF_MAX ->
  (exists lane_size,
      lane_size_of count (clamp_lanes count lanes) = Some lane_size /\
      flat_map range_indices
               (lane_ranges count (clamp_lanes count lanes) lane_size) =
      map Z.of_nat (seq 0 (Z.to_nat count))) /\
  (exists r,
      filter_lane_compact base count stride lanes pred u = Some r /\
      filter_lane_compact base count stride 1 pred u = Some r) /\
  (exists r,
      filter_lane_stable malloc base count stride lanes pred u = Some r /\
      filter_lane_stable malloc base count stride 1 pred u = Some r).
Proof.
  intros Hl Hmax.
  assert (Hcl : clamp_lanes count lanes = lanes).
  { unfold clamp_lanes. destruct (Z.eqb_spec lanes 0); [lia |].
    destruct (Z.ltb_spec count lanes); lia. }
  split; [| split].
  - rewrite Hcl. unfold lane_size_of.
    destruct (Z.eqb_spec lanes 0); [lia |].
    eexists. split; [reflexivity |].
    apply lane_ranges_cover; assumption.
  - eexists. split; apply filter_lane_compact_scan; lia.
  - eexists. split; apply filter_lane_stable_scan; lia.
Qed.

(** C7 at the array of the test suite, scanned in four lanes. *)
Lemma C7_lane_partition_independent_witness :
  (1 <= 4 <= 6 /\ 6 <= PTRDIFF_MAX) /\
  lane_ranges 6 (clamp_lanes 6 4) 2 = [(0, 2); (2, 4); (4, 6)] /\
  filter_lane_compact arr_1_to_6 6 4 4 keep_even tt =
  filter_lane_compact arr_1_to_6 6 4 1 keep_even tt /\
  filter_lane_stable malloc_zeroed arr_1_to_6 6 4 4 keep_even tt =
  filter_lane_stable malloc_zeroed arr_1_to_6 6 4 1 keep_even tt.
Proof.
  assert (H : 1 <= 4 <= 6 /\ 6 <= PTRDIFF_MAX)
    by (unfold PTRDIFF_MAX; lia).
  destruct (C7_lane_partition_independent
              unit keep_even tt malloc_zeroed arr_1_to_6 6 4 4
              (proj1 H) (proj2 H))
    as (_ & (r1 & Ha & Hb) & (r2 & Hc & Hd)).
  split; [exact H |]. split; [reflexivity |].
  split; congruence.
Defined.

(** C10.  For every array, predicate and lane count, each of
    [filter_inplace], [filter_stable], [filter_lane_compact] and
    [filter_lane_stable] that returns kept count [k] leaves the buffer
    length and every byte at offset [>= k * stride] as before the call.
    The first two always return; the lane strategies return when the array
    has at least one element. *)
Theorem C10_tail_untouched
        (user : Type) (pred : predicate user) (u : user)
        (malloc : Z -> option (list byte))
        (base : list byte) (count stride lanes : Z) :
  buffer_ok base count stride -> malloc_ok malloc -> 0 <= lanes ->
  tail_untouched base stride (filter_inplace base count stride pred u) /\
  tail_untouched base stride (filter_stable malloc base count stride pred u) /\
  (forall r, filter_lane_compact base count stride lanes pred u = Some r ->
             tail_untouched base stride r) /\
  (forall r,
      filter_lane_stable malloc base count stride lanes pred u = Some r ->
      tail_untouched base stride r) /\
  (0 < count ->
   filter_lane_compact base count stride lanes pred u <> None /\
   filter_lane_stable malloc base count stride lanes pred u <> None).
Proof.
  intros Hbuf Hm Hl.
  pose proof (buffer_ok_count _ _ _ Hbuf) as Hmax.
  split; [apply filter_inplace_final; exact Hbuf |].
  split; [apply filter_stable_tail; assumption |].
  split; [| split].
  - intros r Hr.
    apply (filter_lane_compact_final user pred u base count stride Hbuf
             lanes r Hl Hr).
  - intros r Hr. unfold filter_lane_stable in Hr.
    destruct (malloc (wrap (count * stride))) as [tmp |] eqn:Ht.
    + destruct (Z.eq_dec count 0) as [-> | Hne].
      * rewrite clamp_lanes_zero in Hr by exact Hl. discriminate Hr.
      * assert (Hscan := filter_lane_stable_scan user pred u malloc base count
                           stride lanes ltac:(destruct Hbuf as (_ & ? & _); lia)
                           Hmax Hl).
        unfold filter_lane_stable in Hscan. rewrite Ht in Hscan.
        rewrite Hscan in Hr. injection Hr as <-.
        apply filter_stable_tail; assumption.
    + injection Hr as <-. split; reflexivity.
  - intros Hc.
    rewrite filter_lane_compact_scan, filter_lane_stable_scan by assumption.
    split; discriminate.
Qed.

(** C10 at the array of the test suite: the last three elements stay. *)
Lemma C10_tail_untouched_witness :
  (buffer_ok arr_1_to_6 6 4 /\ malloc_ok malloc_zeroed /\ 0 <= 2) /\
  tail_untouched arr_1_to_6 4 (filter_inplace arr_1_to_6 6 4 keep_even tt) /\
  tail_untouched arr_1_to_6 4
                 (filter_stable malloc_zeroed arr_1_to_6 6 4 keep_even tt).
Proof.
  assert (H0 : 0 <= 2) by lia.
  destruct (C10_tail_untouched unit keep_even tt malloc_zeroed arr_1_to_6 6 4 2
                               arr_1_to_6_ok malloc_zeroed_ok H0)
    as (H1 & H2 & _).
  split;
    [split; [exact arr_1_to_6_ok | split; [exact malloc_zeroed_ok | exact H0]]
    |].
  split; assumption.
Defined.

(* ====================================================== *)
(** ** Filter: partition *)
(* ====================================================== *)

(** C2 (the code departs from the specification and from its own test).
    The call
    of [cpp_test_filter_exec_i32_partition_even] returns status 0 and count
    3, but leaves [6,2,4,4,5,6] in the buffer: the kept prefix is [6,2,4],
    not [2,4,6]. *)
Theorem C2_partition_example :
  fossil_algorithm_filter_exec malloc_zeroed (Some arr_1_to_6) 6
    (Some "i32"%string) (Some "partition"%string) None 0
    (Some keep_even) tt (Some 0) =
  Some (mkExec 0 (Some (i32s [6; 2; 4; 4; 5; 6])) (Some 3)) /\
  elements (i32s [6; 2; 4; 4; 5; 6]) 4 3 = map (encode_le 4) [6; 2; 4] /\
  elements (i32s [6; 2; 4; 4; 5; 6]) 4 3 <> map (encode_le 4) [2; 4; 6].
Proof.
  split; [vm_compute; reflexivity |].
  split; [vm_compute; reflexivity |].
  vm_compute. discriminate.
Qed.

(** C3 (amended).  After [filter_partition] returns [left], [left] is the
    number of original elements satisfying the predicate, and the elements
    at indices [0 .. left-1] are exactly, as a multiset, the original
    elements satisfying the predicate; the buffer keeps its length.
    Nothing is promised about the elements from index [left] on: failing
    elements are overwritten, not swapped to the back. *)
Theorem C3_partition_prefix
        (user : Type) (pred : predicate user) (u : user)
        (base : list byte) (count stride : Z) :
  0 <= stride -> 0 <= count -> count * stride <= Z.of_nat (length base) ->
  Permutation
    (elements (fst (filter_partition base count stride pred u)) stride
              (snd (filter_partition base count stride pred u)))
    (kept pred u (elements base stride count)) /\
  snd (filter_partition base count stride pred u) =
  Z.of_nat (length (kept pred u (elements base stride count))) /\
  length (fst (filter_partition base count stride pred u)) = length base.
Proof.
  intros Hs Hc Hlen.
  destruct (filter_partition_prefix user pred u base count stride Hs Hc Hlen)
    as (Hp & Hk).
  split; [exact Hp |]. split; [exact Hk |].
  unfold filter_partition. cbn [fst].
  destruct (partition_loop_inv user pred u base count stride Hs Hc Hlen
              (Z.to_nat count) (mkPartition base 0 count)) as ((Hl & _) & _).
  - apply partition_inv_init; assumption.
  - cbn [p_left p_right]. lia.
  - exact Hl.
Qed.

(** C3 at the array of the test suite: the prefix holds 2, 4 and 6. *)
Lemma C3_partition_prefix_witness :
  (0 <= 4 /\ 0 <= 6 /\ 6 * 4 <= Z.of_nat (length arr_1_to_6)) /\
  Permutation
    (elements (fst (filter_partition arr_1_to_6 6 4 keep_even tt)) 4
              (snd (filter_partition arr_1_to_6 6 4 keep_even tt)))
    (map (encode_le 4) [2; 4; 6]).
Proof.
  assert (H : 0 <= 4 /\ 0 <= 6 /\ 6 * 4 <= Z.of_nat (length arr_1_to_6))
    by (cbn; lia).
  split; [exact H |].
  destruct H as (H1 & H2 & H3).
  exact (proj1 (C3_partition_prefix unit keep_even tt arr_1_to_6 6 4 H1 H2 H3)).
Defined.

(** C3 as stated fails on [1,2,3,4,5,6] with [keep_even]: the call returns
    3 and indices 3..5 hold 4, 5 and 6, while the failing elements were 1,
    3 and 5. *)
Lemma C3_counterexample :
  snd (filter_partition arr_1_to_6 6 4 keep_even tt) = 3 /\
  elems_from (fst (filter_partition arr_1_to_6 6 4 keep_even tt)) 4 3 3 =
  map (encode_le 4) [4; 5; 6] /\
  rejected keep_even tt (elements arr_1_to_6 4 6) =
  map (encode_le 4) [1; 3; 5] /\
  ~ Permutation
      (elems_from (fst (filter_partition arr_1_to_6 6 4 keep_even tt)) 4 3 3)
      (rejected keep_even tt (elements arr_1_to_6 4 6)).
Proof.
  split; [vm_compute; reflexivity |].
  split; [vm_compute; reflexivity |].
  split; [vm_compute; reflexivity |].
  intros H.
  apply (Permutation_in (encode_le 4 4)) in H.
  - vm_compute in H. repeat destruct H as [H | H]; try discriminate H. exact H.
  - vm_compute. auto.
Qed.

(* ====================================================== *)
(** ** Filter: dry run *)
(* ====================================================== *)

Lemma filter_count_only_hits
      (user : Type) (pred : predicate user) (u : user)
      (base : list byte) (count stride : Z) :
  filter_count_only base count stride pred u =
  (base, Z.of_nat (length (kept pred u (elements base stride count)))).
Proof.
  unfold filter_count_only, for_range, elements. rewrite Z.sub_0_r. f_equal.
  apply (for_loop_invariant
           (count_only_body base stride pred u) (Z.to_nat count)
           (fun j h =>
              h = Z.of_nat (length (kept pred u (elems_from base stride 0 j))))).
  - reflexivity.
  - intros j h Hj ->. rewrite elems_from_snoc. unfold kept, count_only_body.
    rewrite filter_app, length_app. cbn [filter].
    destruct (pred (elem_at base stride (0 + Z.of_nat j)) u); cbn [length]; lia.
Qed.

Lemma resolve_dry_run (algorithm_id : string) (lanes : Z) :
  resolve_algorithm algorithm_id "dry-run" lanes = "count-only"%string.
Proof. reflexivity. Qed.

Lemma resolve_count_only (mode_id : string) (lanes : Z) :
  resolve_algorithm "count-only" mode_id lanes = "count-only"%string.
Proof.
  unfold resolve_algorithm. change (streq "count-only" "auto") with false.
  cbv iota zeta. destruct (streq mode_id "dry-run"); reflexivity.
Qed.

(** C8.  For every buffer, predicate, lane count and requested algorithm
    (absent or unrecognised ones included), with a supported element type:
    [fossil_algorithm_filter_exec] in mode ["dry-run"] returns success,
    leaves the buffer as it was and reports the number of elements
    satisfying the predicate; it does exactly what a request for
    ["count-only"] does in any mode; and [filter_count_only] itself returns
    the buffer it was given. *)
Theorem C8_dry_run_is_count_only
        (user : Type) (pred : predicate user) (u : user)
        (malloc : Z -> option (list byte))
        (base : list byte) (count : Z)
        (type_id algorithm_id mode_id : option string) (lanes : Z)
        (out : option Z) :
  fossil_algorithm_filter_type_sizeof type_id <> 0 ->
  let stride := fossil_algorithm_filter_type_sizeof type_id in
  let hits := Z.of_nat (length (kept pred u (elements base stride count))) in
  fossil_algorithm_filter_exec malloc (Some base) count type_id algorithm_id
    (Some "dry-run"%string) lanes (Some pred) u out =
  Some (mkExec 0 (Some base)
               (match out with Some _ => Some hits | None => None end)) /\
  fossil_algorithm_filter_exec malloc (Some base) count type_id algorithm_id
    (Some "dry-run"%string) lanes (Some pred) u out =
  fossil_algorithm_filter_exec malloc (Some base) count type_id
    (Some "count-only"%string) mode_id lanes (Some pred) u out /\
  fst (filter_count_only base count stride pred u) = base.
Proof.
  intros Hty stride hits.
  assert (Hdry :
    fossil_algorithm_filter_exec malloc (Some base) count type_id algorithm_id
      (Some "dry-run"%string) lanes (Some pred) u out =
    Some (mkExec 0 (Some base)
                 (match out with Some _ => Some hits | None => None end))).
  { unfold fossil_algorithm_filter_exec. fold stride.
    destruct (Z.eqb_spec stride 0) as [E | _]; [contradiction |].
    cbv zeta. rewrite resolve_dry_run.
    change (dispatch malloc "count-only" base count stride lanes pred u)
      with (Ran (filter_count_only base count stride pred u)).
    rewrite filter_count_only_hits. reflexivity. }
  split; [exact Hdry |]. split.
  - rewrite Hdry. unfold fossil_algorithm_filter_exec. fold stride.
    destruct (Z.eqb_spec stride 0) as [E | _]; [contradiction |].
    cbv zeta. rewrite resolve_count_only.
    change (dispatch malloc "count-only" base count stride lanes pred u)
      with (Ran (filter_count_only base count stride pred u)).
    rewrite filter_count_only_hits. reflexivity.
  - reflexivity.
Qed.

(** C8 at the call of [cpp_test_filter_exec_dry_run], with an algorithm
    name the dispatcher does not know. *)
Lemma C8_dry_run_is_count_only_witness :
  fossil_algorithm_filter_type_sizeof (Some "i32"%string) <> 0 /\
  fossil_algorithm_filter_exec malloc_zeroed (Some arr_1_to_6) 6
    (Some "i32"%string) (Some "notalgo"%string) (Some "dry-run"%string) 0
    (Some keep_even) tt (Some 0) =
  Some (mkExec 0 (Some arr_1_to_6) (Some 3)).
Proof.
  assert (H : fossil_algorithm_filter_type_sizeof (Some "i32"%string) <> 0)
    by (cbn; lia).
  split; [exact H |].
  exact (proj1 (C8_dry_run_is_count_only unit keep_even tt malloc_zeroed
                  arr_1_to_6 6 (Some "i32"%string) (Some "notalgo"%string)
                  None 0 (Some 0) H)).
Defined.

(* ====================================================== *)
(** ** Reduce *)
(* ====================================================== *)

Lemma known_operator_false (op_id : string) :
  known_operator op_id = false ->
  Reduce.streq op_id "sum" = false /\ Reduce.streq op_id "min" = false /\
  Reduce.streq op_id "max" = false /\ Reduce.streq op_id "count" = false /\
  Reduce.streq op_id "any" = false /\ Reduce.streq op_id "all" = false /\
  Reduce.streq op_id "custom" = false.
Proof.
  unfold known_operator, Reduce.streq. cbn [existsb]. intros H.
  repeat (apply orb_false_elim in H; destruct H as [? H]).
  repeat split; assumption.
Qed.

(** Without an element to scan the lane loop stops at its first test. *)
Lemma reduce_lane_loop_empty
      (n : nat) (count lane_size : Z)
      (body : Z -> list byte -> Reduce.outcome) (accum : list byte) :
  count <= 0 ->
  Reduce.reduce_lane_loop n 0 count lane_size body accum = Reduce.Next accum.
Proof.
  intros Hc. destruct n as [| n]; cbn [Reduce.reduce_lane_loop].
  - reflexivity.
  - rewrite Z.mul_0_l. change (wrap 0) with 0.
    destruct (Z.leb_spec count 0); [reflexivity | lia].
Qed.

(** C4 (amended).  A call of [fossil_algorithm_reduce_exec] with operator
    ["custom"] and a null reducer (base, accumulator, type and operator
    non-null) returns -1 when the type identifier is supported; the type is
    resolved first, so with an unknown type identifier or ["null"] the call
    returns -2.  The accumulator is not written in either case. *)
Theorem C4_custom_null_reducer
        (F : Reduce.float_ops) (user : Type)
        (base : list byte) (count : Z) (type_id : string)
        (mode_id : option string) (lanes : Z) (accum : list byte) (u : user) :
  Reduce.fossil_algorithm_reduce_exec F (Some base) count (Some type_id)
    (Some "custom"%string) mode_id lanes (Some accum) None u =
  Some (Reduce.mkReduce
          (if Reduce.fossil_algorithm_reduce_type_sizeof (Some type_id) =? 0
           then -2 else -1)
          (Some accum)).
Proof.
  unfold Reduce.fossil_algorithm_reduce_exec.
  destruct (Reduce.fossil_algorithm_reduce_type_sizeof (Some type_id) =? 0);
    reflexivity.
Qed.

(** C4 as stated fails: with a null reducer and the type identifier
    ["null"] (or an unknown one) the status is -2, not -1. *)
Lemma C4_counterexample :
  Reduce.fossil_algorithm_reduce_exec no_float (Some (i32s [1; 2; 3])) 3
    (Some "null"%string) (Some "custom"%string) (Some "auto"%string) 0
    (Some (i32s [0])) None tt =
  Some (Reduce.mkReduce (-2) (Some (i32s [0]))) /\
  Reduce.fossil_algorithm_reduce_exec no_float (Some (i32s [1; 2; 3])) 3
    (Some "notatype"%string) (Some "custom"%string) (Some "auto"%string) 0
    (Some (i32s [0])) None tt =
  Some (Reduce.mkReduce (-2) (Some (i32s [0]))).
Proof. split; vm_compute; reflexivity. Qed.

(** C5 (the code departs from the specification and from its own test).
    The call
    of [cpp_test_reduce_exec_u8_max] returns status 0 but never writes the
    accumulator: for ["u8"] neither the initialisation nor [reduce_max]
    has a branch.  The accumulator keeps the caller's value, 0 in the test,
    not 5. *)
Theorem C5_max_u8_example :
  (forall (F : Reduce.float_ops) (accum : list byte),
      Reduce.fossil_algorithm_reduce_exec F (Some (u8s [4; 2; 5; 1; 3])) 5
        (Some "u8"%string) (Some "max"%string) (Some "auto"%string) 0
        (Some accum) None tt =
      Some (Reduce.mkReduce 0 (Some accum))) /\
  Reduce.fossil_algorithm_reduce_exec no_float (Some (u8s [4; 2; 5; 1; 3])) 5
    (Some "u8"%string) (Some "max"%string) (Some "auto"%string) 0
    (Some (u8s [0])) None tt =
  Some (Reduce.mkReduce 0 (Some (u8s [0]))) /\
  u8s [0] <> u8s [5].
Proof.
  split; [intros F accum; vm_compute; reflexivity |].
  split; [vm_compute; reflexivity |].
  vm_compute. discriminate.
Qed.

(** C6 (amended).  [fossil_algorithm_reduce_exec] with a null [out_result]
    returns -1 whatever the other arguments.
    [fossil_algorithm_filter_exec] does not require [out_count]: with a null
    slot it returns the status and leaves the buffer it would with a slot,
    and only skips the store of the count; its status is -1 only when the
    buffer or the predicate is null. *)
Theorem C6_null_output_slot :
  (forall (F : Reduce.float_ops) (user : Type)
          (base : option (list byte)) (count : Z)
          (type_id op_id mode_id : option string) (lanes : Z)
          (reduce_fn : option (Reduce.reducer user)) (u : user),
      Reduce.fossil_algorithm_reduce_exec F base count type_id op_id mode_id
        lanes None reduce_fn u =
      Some (Reduce.mkReduce (-1) None)) /\
  (forall (user : Type) (malloc : Z -> option (list byte))
          (base : option (list byte)) (count : Z)
          (type_id algorithm_id mode_id : option string) (lanes : Z)
          (pred : option (predicate user)) (u : user) (v : Z),
      option_map status
        (fossil_algorithm_filter_exec malloc base count type_id algorithm_id
           mode_id lanes pred u None) =
      option_map status
        (fossil_algorithm_filter_exec malloc base count type_id algorithm_id
           mode_id lanes pred u (Some v)) /\
      option_map buffer
        (fossil_algorithm_filter_exec malloc base count type_id algorithm_id
           mode_id lanes pred u None) =
      option_map buffer
        (fossil_algorithm_filter_exec malloc base count type_id algorithm_id
           mode_id lanes pred u (Some v)) /\
      (forall r,
          fossil_algorithm_filter_exec malloc base count type_id algorithm_id
            mode_id lanes pred u None = Some r ->
          out_count r = None /\
          (status r = -1 -> base = None \/ pred = None))).
Proof.
  split.
  - intros. unfold Reduce.fossil_algorithm_reduce_exec.
    destruct base; reflexivity.
  - intros. unfold fossil_algorithm_filter_exec.
    destruct base as [bytes |], pred as [p |];
      try (split; [reflexivity | split; [reflexivity |]];
           intros r Hr; injection Hr as <-; cbn; auto).
    destruct (fossil_algorithm_filter_type_sizeof type_id =? 0);
      [split; [reflexivity | split; [reflexivity |]];
       intros r Hr; injection Hr as <-; cbn; split;
       [reflexivity | discriminate] |].
    cbv zeta.
    destruct (dispatch malloc _ bytes count _ lanes p u) as [res | |];
      (split; [reflexivity | split; [reflexivity |]]);
      intros r Hr; try discriminate Hr; injection Hr as <-; cbn;
      split; (reflexivity || discriminate).
Qed.

(** C6 at the call of the in-place test without an output slot. *)
Lemma C6_null_output_slot_witness :
  out_count (mkExec 0 (Some (i32s [2; 4; 6; 4; 5; 6])) None) = None /\
  (status (mkExec 0 (Some (i32s [2; 4; 6; 4; 5; 6])) None) = -1 ->
   Some arr_1_to_6 = None \/ Some keep_even = None).
Proof.
  assert (H : fossil_algorithm_filter_exec malloc_zeroed (Some arr_1_to_6) 6
                (Some "i32"%string) (Some "inplace"%string) None 0
                (Some keep_even) tt None =
              Some (mkExec 0 (Some (i32s [2; 4; 6; 4; 5; 6])) None))
    by (vm_compute; reflexivity).
  exact (proj2 (proj2 (proj2 C6_null_output_slot unit malloc_zeroed
                         (Some arr_1_to_6) 6 (Some "i32"%string)
                         (Some "inplace"%string) None 0 (Some keep_even) tt 0))
               _ H).
Defined.

(** C6 as stated fails for the filter: the call of the in-place test with a
    null [out_count] succeeds. *)
Lemma C6_counterexample :
  fossil_algorithm_filter_exec malloc_zeroed (Some arr_1_to_6) 6
    (Some "i32"%string) (Some "inplace"%string) None 0
    (Some keep_even) tt None =
  Some (mkExec 0 (Some (i32s [2; 4; 6; 4; 5; 6])) None).
Proof. vm_compute. reflexivity. Qed.

(** C9.  A call of [fossil_algorithm_reduce_exec] with an operator
    identifier it does not know, no element ([count = 0]), non-null
    arguments and a supported type returns 0 and leaves the accumulator as
    it was; and whatever the arguments, status -3 is returned only when the
    array has at least one element. *)
Theorem C9_unknown_operator_empty
        (F : Reduce.float_ops) (user : Type)
        (base : list byte) (type_id op_id : string)
        (mode_id : option string) (lanes : Z) (accum : list byte)
        (reduce_fn : option (Reduce.reducer user)) (u : user) :
  Reduce.fossil_algorithm_reduce_type_sizeof (Some type_id) <> 0 ->
  known_operator op_id = false ->
  Reduce.fossil_algorithm_reduce_exec F (Some base) 0 (Some type_id)
    (Some op_id) mode_id lanes (Some accum) reduce_fn u =
  Some (Reduce.mkReduce 0 (Some accum)) /\
  (forall (base' : option (list byte)) (count' : Z)
          (type_id' op_id' mode_id' : option string) (lanes' : Z)
          (out' : option (list byte))
          (reduce_fn' : option (Reduce.reducer user)) (u' : user) r,
      Reduce.fossil_algorithm_reduce_exec F base' count' type_id' op_id'
        mode_id' lanes' out' reduce_fn' u' = Some r ->
      Reduce.status r = -3 -> 0 < count').
Proof.
  intros Hty Hop. split.
  - destruct (known_operator_false op_id Hop)
      as (Hsum & Hmin & Hmax & Hcnt & Hany & Hall & Hcus).
    unfold Reduce.fossil_algorithm_reduce_exec.
    destruct (Z.eqb_spec (Reduce.fossil_algorithm_reduce_type_sizeof
                            (Some type_id)) 0) as [E | _]; [contradiction |].
    rewrite Hcus. cbn [andb]. cbv zeta.
    rewrite reduce_lane_loop_empty by lia.
    unfold Reduce.init_accumulator.
    rewrite Hsum, Hmin, Hmax, Hcnt, Hany, Hall. reflexivity.
  - intros base' count' type_id' op_id' mode_id' lanes' out' reduce_fn' u' r
           Hr Hst.
    destruct (Z.ltb_spec 0 count') as [Hpos | Hle]; [exact Hpos | exfalso].
    unfold Reduce.fossil_algorithm_reduce_exec in Hr.
    destruct base', out', type_id', op_id';
      try (injection Hr as <-; discriminate Hst).
    destruct (_ =? 0); [injection Hr as <-; discriminate Hst |].
    destruct (_ && _); [injection Hr as <-; discriminate Hst |].
    cbv zeta in Hr. rewrite reduce_lane_loop_empty in Hr by exact Hle.
    injection Hr as <-. discriminate Hst.
Qed.

(** C9 at an empty array of [int32_t] with the operator ["notop"]. *)
Lemma C9_unknown_operator_empty_witness :
  (Reduce.fossil_algorithm_reduce_type_sizeof (Some "i32"%string) <> 0 /\
   known_operator "notop" = false) /\
  Reduce.fossil_algorithm_reduce_exec no_float (Some []) 0 (Some "i32"%string)
    (Some "notop"%string) (Some "auto"%string) 0 (Some (i32s [9])) None tt =
  Some (Reduce.mkReduce 0 (Some (i32s [9]))).
Proof.
  assert (H1 : Reduce.fossil_algorithm_reduce_type_sizeof (Some "i32"%string)
               <> 0)
    by (cbn; lia).
  assert (H2 : known_operator "notop" = false) by reflexivity.
  split; [split; [exact H1 | exact H2] |].
  exact (proj1 (C9_unknown_operator_empty no_float unit [] "i32" "notop"
                  (Some "auto"%string) 0 (i32s [9]) None tt H1 H2)).
Defined.

(* ====================================================== *)
(** ** Filter: the compacting strategies agree *)
(* ====================================================== *)

Lemma firstn_next_elem (m : list byte) (stride k : Z) :
  0 <= stride -> 0 <= k ->
  firstn (Z.to_nat ((k + 1) * stride)) m =
  firstn (Z.to_nat (k * stride)) m ++ elem_at m stride k.
Proof.
  intros Hs Hk. unfold elem_at, load.
  replace (Z.to_nat ((k + 1) * stride))
    with (Z.to_nat (k * stride) + Z.to_nat stride)%nat by nia.
  rewrite <- (firstn_skipn (Z.to_nat (k * stride)) m) at 1.
  rewrite firstn_app, length_firstn.
  destruct (Nat.le_gt_cases (Z.to_nat (k * stride)) (length m)) as [Hle | Hgt].
  - rewrite Nat.min_l by exact Hle.
    rewrite firstn_all2 by (rewrite length_firstn; lia).
    f_equal. f_equal. lia.
  - rewrite Nat.min_r by lia.
    rewrite firstn_all2 by (rewrite length_firstn; lia).
    rewrite skipn_all2 by lia. rewrite !firstn_nil. reflexivity.
Qed.

(** Buffers with the same first [k] elements start with the same bytes. *)
Lemma firstn_of_elems (m1 m2 : list byte) (stride : Z) (k : nat) :
  0 <= stride ->
  elems_from m1 stride 0 k = elems_from m2 stride 0 k ->
  firstn (Z.to_nat (Z.of_nat k * stride)) m1 =
  firstn (Z.to_nat (Z.of_nat k * stride)) m2.
Proof.
  intros Hs. induction k as [| k IH]; intros He.
  - reflexivity.
  - rewrite !elems_from_snoc, Z.add_0_l in He.
    apply app_inj_tail in He. destruct He as [He Hlast].
    replace (Z.of_nat (S k)) with (Z.of_nat k + 1) by lia.
    rewrite !firstn_next_elem by lia.
    rewrite IH by exact He. rewrite Hlast. reflexivity.
Qed.

(** The invariant of the compacting scans, once the scan is over, fixes the
    whole result: the count, and every byte of the buffer. *)
Lemma compact_inv_unique
      (user : Type) (pred : predicate user) (u : user)
      (base : list byte) (stride : Z) (j : nat) (r1 r2 : cursor) :
  0 <= stride ->
  compact_inv pred u base stride j r1 ->
  compact_inv pred u base stride j r2 ->
  r1 = r2.
Proof.
  intros Hs (Hl1 & Hw1 & He1 & Hk1) (Hl2 & Hw2 & He2 & Hk2).
  destruct r1 as [b1 w1], r2 as [b2 w2]. cbn [fst snd] in *.
  assert (Hw : w1 = w2).
  { apply (f_equal (@length _)) in He1, He2.
    rewrite length_elems_from in He1, He2. lia. }
  subst w2. f_equal.
  rewrite <- (firstn_skipn (Z.to_nat (w1 * stride)) b1).
  rewrite <- (firstn_skipn (Z.to_nat (w1 * stride)) b2).
  rewrite Hk1, Hk2. f_equal.
  replace w1 with (Z.of_nat (Z.to_nat w1)) by lia.
  apply firstn_of_elems; [exact Hs |]. congruence.
Qed.

Lemma lane_compact_inplace_eq
        (user : Type) (pred : predicate user) (u : user)
        (base : list byte) (count stride lanes : Z) :
  buffer_ok base count stride -> 0 < count -> 0 <= lanes ->
  filter_lane_compact base count stride lanes pred u =
  Some (filter_inplace base count stride pred u).
Proof.
  intros Hbuf Hc Hl.
  pose proof (buffer_ok_count _ _ _ Hbuf) as Hmax.
  destruct Hbuf as (Hs & _ & Hlen & _).
  rewrite filter_lane_compact_scan by assumption. f_equal.
  apply (compact_inv_unique user pred u base stride (Z.to_nat count));
    [lia | |].
  - apply for_range_lane_compact_inv; lia.
  - apply filter_inplace_inv; lia.
Qed.

(** X1.  The lane strategy with the shared write cursor leaves exactly the
    buffer and the count of the in-place strategy. *)
Theorem filter_lane_compact_is_inplace
        (user : Type) (pred : predicate user) (u : user)
        (base : list byte) (count stride lanes : Z) :
  buffer_ok base count stride -> 0 < count -> 0 <= lanes ->
  filter_lane_compact base count stride lanes pred u =
  Some (filter_inplace base count stride pred u).
Proof.
  exact (lane_compact_inplace_eq user pred u base count stride lanes).
Qed.

Lemma filter_lane_compact_is_inplace_witness :
  filter_lane_compact arr_1_to_6 6 4 3 keep_even tt =
  Some (filter_inplace arr_1_to_6 6 4 keep_even tt).
Proof.
  apply (filter_lane_compact_is_inplace unit keep_even tt arr_1_to_6 6 4 3
           arr_1_to_6_ok); lia.
Defined.

Lemma stable_inplace_eq
        (user : Type) (pred : predicate user) (u : user)
        (malloc : Z -> option (list byte))
        (base : list byte) (count stride : Z) :
  buffer_ok base count stride ->
  malloc_ok malloc -> malloc (wrap (count * stride)) <> None ->
  filter_stable malloc base count stride pred u =
  filter_inplace base count stride pred u /\
  (forall lanes,
      0 < count -> 0 <= lanes ->
      filter_lane_stable malloc base count stride lanes pred u =
      Some (filter_inplace base count stride pred u)).
Proof.
  intros Hbuf Hm Hsome.
  assert (Heq : filter_stable malloc base count stride pred u =
                filter_inplace base count stride pred u).
  { pose proof Hbuf as (Hs & Hc & Hlen & Hmax).
    apply (compact_inv_unique user pred u base stride (Z.to_nat count));
      [lia | | apply filter_inplace_inv; lia].
    unfold filter_stable.
    destruct (malloc (wrap (count * stride))) as [tmp |] eqn:Ht;
      [| congruence].
    apply Hm in Ht.
    rewrite (malloc_size_exact base count stride Hbuf) in Ht.
    assert (Hs0 : 0 <= stride) by lia.
    assert (Htmp : Z.of_nat (length tmp) = count * stride) by nia.
    assert (Hinv : stable_inv pred u base stride tmp (Z.to_nat count)
                     (for_range 0 count (stable_body base stride pred u)
                                (tmp, 0)))
      by (apply for_range_stable_inv; assumption).
    destruct (for_range 0 count (stable_body base stride pred u) (tmp, 0))
      as [tmp' k].
    apply (copy_back_inv user pred u base count stride) with (tmp0 := tmp)
                                                           (st := (tmp', k));
      assumption. }
  split; [exact Heq |].
  intros lanes Hc Hl. rewrite <- Heq.
  apply filter_lane_stable_scan;
    [exact Hc | apply (buffer_ok_count _ _ _ Hbuf) | exact Hl].
Qed.

(** X2.  When the scratch allocation succeeds the scratch-copy strategy leaves
    exactly the buffer and the count of the in-place strategy, and so does
    its lane variant on a non-empty array. *)
Theorem filter_stable_is_inplace
        (user : Type) (pred : predicate user) (u : user)
        (malloc : Z -> option (list byte))
        (base : list byte) (count stride : Z) :
  buffer_ok base count stride ->
  malloc_ok malloc -> malloc (wrap (count * stride)) <> None ->
  filter_stable malloc base count stride pred u =
  filter_inplace base count stride pred u /\
  (forall lanes,
      0 < count -> 0 <= lanes ->
      filter_lane_stable malloc base count stride lanes pred u =
      Some (filter_inplace base count stride pred u)).
Proof.
  exact (stable_inplace_eq user pred u malloc base count stride).
Qed.

Lemma filter_stable_is_inplace_witness :
  filter_stable malloc_zeroed arr_1_to_6 6 4 keep_even tt =
  filter_inplace arr_1_to_6 6 4 keep_even tt.
Proof.
  apply (filter_stable_is_inplace unit keep_even tt malloc_zeroed
           arr_1_to_6 6 4 arr_1_to_6_ok malloc_zeroed_ok).
  discriminate.
Defined.

Lemma kept_idempotent
      (user : Type) (pred : predicate user) (u : user)
      (l : list (list byte)) :
  kept pred u (kept pred u l) = kept pred u l.
Proof.
  unfold kept. induction l as [| e l IH]; cbn [filter].
  - reflexivity.
  - destruct (pred e u) eqn:He; cbn [filter]; rewrite ?He, IH; reflexivity.
Qed.

(** X3.  Compacting is idempotent: running the in-place strategy again on its
    own result, with the count it returned, changes nothing. *)
Theorem filter_inplace_idempotent
        (user : Type) (pred : predicate user) (u : user)
        (base : list byte) (count stride : Z) :
  buffer_ok base count stride ->
  filter_inplace (fst (filter_inplace base count stride pred u))
                 (snd (filter_inplace base count stride pred u))
                 stride pred u =
  filter_inplace base count stride pred u.
Proof.
  intros (Hs & Hc & Hlen & Hmax).
  pose proof (filter_inplace_inv user pred u base count stride
                ltac:(lia) Hc Hlen) as Hinv.
  destruct (filter_inplace base count stride pred u) as [b k] eqn:Hr.
  destruct Hinv as (Hl & Hk & He & Hsk). cbn [fst snd] in *.
  assert (Hlen' : k * stride <= Z.of_nat (length b)) by nia.
  apply (compact_inv_unique user pred u b stride (Z.to_nat k)); [lia | |].
  - apply filter_inplace_inv; lia.
  - unfold compact_inv. cbn [fst snd].
    repeat split; try lia.
    rewrite He. symmetry. apply kept_idempotent.
Qed.

Lemma filter_inplace_idempotent_witness :
  filter_inplace (fst (filter_inplace arr_1_to_6 6 4 keep_even tt))
                 (snd (filter_inplace arr_1_to_6 6 4 keep_even tt))
                 4 keep_even tt =
  filter_inplace arr_1_to_6 6 4 keep_even tt.
Proof.
  exact (filter_inplace_idempotent unit keep_even tt arr_1_to_6 6 4
           arr_1_to_6_ok).
Defined.

(* ====================================================== *)
(** ** Filter: the queries *)
(* ====================================================== *)

(** X4.  The count reported by a dry run is the count the in-place compaction
    and the partition return. *)
Theorem filter_count_only_predicts
        (user : Type) (pred : predicate user) (u : user)
        (base : list byte) (count stride : Z) :
  buffer_ok base count stride ->
  snd (filter_inplace base count stride pred u) =
  snd (filter_count_only base count stride pred u) /\
  snd (filter_partition base count stride pred u) =
  snd (filter_count_only base count stride pred u).
Proof.
  intros Hbuf. rewrite filter_count_only_hits. cbn [snd].
  split.
  - apply (filter_inplace_final user pred u base count stride Hbuf).
  - destruct Hbuf as (Hs & Hc & Hlen & _).
    apply (filter_partition_prefix user pred u base count stride); lia.
Qed.

Lemma filter_count_only_predicts_witness :
  snd (filter_inplace arr_1_to_6 6 4 keep_even tt) =
  snd (filter_count_only arr_1_to_6 6 4 keep_even tt) /\
  snd (filter_partition arr_1_to_6 6 4 keep_even tt) =
  snd (filter_count_only arr_1_to_6 6 4 keep_even tt).
Proof.
  exact (filter_count_only_predicts unit keep_even tt arr_1_to_6 6 4
           arr_1_to_6_ok).
Defined.

Lemma first_loop_existsb
      (user : Type) (pred : predicate user) (u : user)
      (base : list byte) (stride : Z) (n : nat) :
  forall i,
    first_loop user n i base stride pred u =
    if existsb (fun e => pred e u) (elems_from base stride i n) then 1 else 0.
Proof.
  induction n as [| n IH]; intros i; cbn [first_loop elems_from existsb].
  - reflexivity.
  - destruct (pred (elem_at base stride i) u); [reflexivity | apply IH].
Qed.

Lemma last_loop_existsb
      (user : Type) (pred : predicate user) (u : user)
      (base : list byte) (stride : Z) (n : nat) :
  last_loop user n base stride pred u =
  if existsb (fun e => pred e u) (elems_from base stride 0 n) then 1 else 0.
Proof.
  induction n as [| n IH]; cbn [last_loop].
  - reflexivity.
  - rewrite elems_from_snoc, existsb_app, Z.add_0_l. cbn [existsb].
    destruct (pred (elem_at base stride (Z.of_nat n)) u).
    + rewrite orb_true_r. reflexivity.
    + rewrite !orb_false_r. exact IH.
Qed.

Lemma existsb_kept
      (user : Type) (pred : predicate user) (u : user)
      (l : list (list byte)) :
  existsb (fun e => pred e u) l = negb (Nat.eqb (length (kept pred u l)) 0).
Proof.
  unfold kept. induction l as [| e l IH]; cbn [existsb filter].
  - reflexivity.
  - destruct (pred e u); cbn [orb length]; [reflexivity | exact IH].
Qed.

(** X5.  The forward and the backward query leave the buffer alone and return
    the same answer: 1 when some element satisfies the predicate, that is
    when a dry run counts at least one, and 0 otherwise. *)
Theorem filter_first_last_exists
        (user : Type) (pred : predicate user) (u : user)
        (base : list byte) (count stride : Z) :
  filter_first base count stride pred u =
  (base,
   if existsb (fun e => pred e u) (elements base stride count)
   then 1 else 0) /\
  filter_last base count stride pred u =
  filter_first base count stride pred u /\
  (snd (filter_first base count stride pred u) = 1 <->
   0 < snd (filter_count_only base count stride pred u)).
Proof.
  unfold filter_first, filter_last, elements.
  rewrite first_loop_existsb, last_loop_existsb.
  split; [reflexivity |]. split; [reflexivity |].
  rewrite filter_count_only_hits. cbn [snd]. unfold elements.
  rewrite existsb_kept.
  destruct (length (kept pred u (elems_from base stride 0 (Z.to_nat count))));
    cbn; split; intros H; try lia; discriminate H.
Qed.

(* ====================================================== *)
(** ** Filter: what the partition leaves in place *)
(* ====================================================== *)

Lemma partition_loop_preserves
      (user : Type) (pred : predicate user) (u : user) (stride : Z)
      (P : partition_state -> Prop) :
  (forall st, P st -> p_left st < p_right st ->
              P (partition_step stride pred u st)) ->
  forall n st, P st -> P (partition_loop n stride pred u st).
Proof.
  intros Hstep. induction n as [| n IH]; intros st Hst; cbn [partition_loop].
  - exact Hst.
  - destruct (Z.ltb_spec (p_left st) (p_right st)); [| exact Hst].
    apply IH, Hstep; assumption.
Qed.

(** X6.  The partition writes at index [left] or below: every byte from offset
    [(left + 1) * stride] on, [left] being the returned count, is as it was
    before the call, and the buffer keeps its length. *)
Theorem filter_partition_frame
        (user : Type) (pred : predicate user) (u : user)
        (base : list byte) (count stride : Z) :
  0 <= stride -> 0 <= count -> count * stride <= Z.of_nat (length base) ->
  length (fst (filter_partition base count stride pred u)) = length base /\
  forall off : nat,
    (snd (filter_partition base count stride pred u) + 1) * stride
    <= Z.of_nat off ->
    nth_error (fst (filter_partition base count stride pred u)) off =
    nth_error base off.
Proof.
  intros Hs Hc Hlen. unfold filter_partition. cbn [fst snd].
  set (Q := fun st : partition_state =>
              partition_inv pred u base count stride st /\
              skipn (Z.to_nat ((p_left st + 1) * stride)) (p_base st) =
              skipn (Z.to_nat ((p_left st + 1) * stride)) base).
  assert (HQ : Q (partition_loop (Z.to_nat count) stride pred u
                                 (mkPartition base 0 count))).
  { apply partition_loop_preserves.
    - intros st (Hinv & Hsk) Hlt. split.
      + apply partition_step_inv; assumption.
      + destruct Hinv as (Hl & Hlr & Hrc & _).
        destruct st as [b l r]. cbn [p_base p_left p_right] in *.
        unfold partition_step. cbn [p_base p_left p_right].
        destruct (pred (elem_at b stride l) u); cbn [p_base p_left].
        * apply (skipn_eq_mono _ _ _ _ Hsk). nia.
        * unfold memmove.
          assert (Hly : length (load b ((r - 1) * stride) stride)
                        = Z.to_nat stride)
            by (apply length_load; nia).
          rewrite skipn_store_above by nia. exact Hsk.
    - split; [apply partition_inv_init; assumption | reflexivity]. }
  destruct HQ as ((Hl & _) & Hsk).
  split; [exact Hl |].
  intros off Hoff.
  set (st := partition_loop (Z.to_nat count) stride pred u
                            (mkPartition base 0 count)) in *.
  replace off
    with (Z.to_nat ((p_left st + 1) * stride)
          + (off - Z.to_nat ((p_left st + 1) * stride)))%nat by lia.
  rewrite <- !nth_error_skipn, Hsk. reflexivity.
Qed.

Lemma filter_partition_frame_witness :
  length (fst (filter_partition arr_1_to_6 6 4 keep_even tt)) =
  length arr_1_to_6.
Proof.
  apply (filter_partition_frame unit keep_even tt arr_1_to_6 6 4);
    cbn; lia.
Defined.

Lemma elems_from_In (m : list byte) (stride : Z) (n : nat) :
  forall lo i,
    lo <= i < lo + Z.of_nat n ->
    In (elem_at m stride i) (elems_from m stride lo n).
Proof.
  induction n as [| n IH]; intros lo i Hi; cbn [elems_from].
  - lia.
  - destruct (Z.eq_dec i lo) as [-> | Hne].
    + left. reflexivity.
    + right. apply IH. lia.
Qed.

(** X7.  When every element satisfies the predicate the partition writes
    nothing: it returns [count] and the buffer it was given. *)
Theorem filter_partition_all_pass
        (user : Type) (pred : predicate user) (u : user)
        (base : list byte) (count stride : Z) :
  0 <= count ->
  Forall (fun e => pred e u = true) (elements base stride count) ->
  filter_partition base count stride pred u = (base, count).
Proof.
  intros Hc Hall. unfold filter_partition.
  set (Q := fun st : partition_state =>
              p_base st = base /\ p_right st = count /\
              0 <= p_left st <= count).
  assert (Hfinal : forall n st,
             Q st -> p_right st - p_left st <= Z.of_nat n ->
             Q (partition_loop n stride pred u st) /\
             p_left (partition_loop n stride pred u st) = count).
  { induction n as [| n IH]; intros st (Hb & Hr & Hl) Hn;
      cbn [partition_loop].
    - repeat split; try assumption; lia.
    - destruct (Z.ltb_spec (p_left st) (p_right st)) as [Hlt | Hge];
        [| repeat split; try assumption; lia].
      assert (Hp : pred (elem_at (p_base st) stride (p_left st)) u = true).
      { rewrite Hb. rewrite Forall_forall in Hall. apply Hall.
        apply elems_from_In. lia. }
      unfold partition_step. rewrite Hp.
      apply IH; unfold Q; cbn [p_base p_left p_right].
      + repeat split; try assumption; lia.
      + lia. }
  destruct (Hfinal (Z.to_nat count) (mkPartition base 0 count))
    as ((Hb & _ & _) & Hl).
  - unfold Q; cbn [p_base p_left p_right]. repeat split; lia.
  - cbn [p_left p_right]. lia.
  - rewrite Hb, Hl. reflexivity.
Qed.

Lemma filter_partition_all_pass_witness :
  filter_partition (i32s [2; 4; 6]) 3 4 keep_even tt = (i32s [2; 4; 6], 3).
Proof.
  apply (filter_partition_all_pass unit keep_even tt (i32s [2; 4; 6]) 3 4);
    [lia |].
  apply Forall_forall. intros e He. vm_compute in He.
  repeat (destruct He as [<- | He]; [vm_compute; reflexivity |]).
  contradiction.
Defined.

(* ====================================================== *)
(** ** Filter: the entry point *)
(* ====================================================== *)

(** X8.  A call that does not succeed returns one of the three error codes and
    leaves the buffer and the output slot as they were; -1 is the answer to
    a null buffer or predicate and to nothing else, -2 the answer to a type
    of width zero once both are present. *)
Theorem filter_exec_failure
        (user : Type) (malloc : Z -> option (list byte))
        (base : option (list byte)) (count : Z)
        (type_id algorithm_id mode_id : option string) (lanes : Z)
        (pred : option (predicate user)) (u : user) (out : option Z)
        (r : exec_result) :
  fossil_algorithm_filter_exec malloc base count type_id algorithm_id
    mode_id lanes pred u out = Some r ->
  (status r = 0 \/ status r = -1 \/ status r = -2 \/ status r = -3) /\
  (status r <> 0 -> buffer r = base /\ out_count r = out) /\
  (status r = -1 <-> base = None \/ pred = None) /\
  (status r = -2 <->
   base <> None /\ pred <> None /\
   fossil_algorithm_filter_type_sizeof type_id = 0).
Proof.
  unfold fossil_algorithm_filter_exec. intros Hr.
  destruct base as [bytes |], pred as [p |];
    try (injection Hr as <-; cbn [status buffer out_count];
         repeat split; auto; try discriminate; try tauto;
         intros (? & ? & ?); congruence).
  destruct (Z.eqb_spec (fossil_algorithm_filter_type_sizeof type_id) 0)
    as [E | E].
  - injection Hr as <-. cbn [status buffer out_count].
    repeat split; auto; try discriminate.
    intros [H | H]; discriminate H.
  - cbv zeta in Hr.
    destruct (dispatch malloc _ bytes count _ lanes p u) as [res | |];
      try discriminate Hr; injection Hr as <-; cbn [status buffer out_count];
      (repeat split; auto; try discriminate; try tauto;
       try (intros [H | H]; discriminate H);
       try (intros (_ & _ & H); contradiction)).
Qed.

Lemma filter_exec_failure_witness :
  buffer (mkExec (-3) (Some arr_1_to_6) (Some 7)) = Some arr_1_to_6 /\
  out_count (mkExec (-3) (Some arr_1_to_6) (Some 7)) = Some 7.
Proof.
  assert (H : fossil_algorithm_filter_exec malloc_zeroed (Some arr_1_to_6) 6
                (Some "i32"%string) (Some "notalgo"%string) None 0
                (Some keep_even) tt (Some 7) =
              Some (mkExec (-3) (Some arr_1_to_6) (Some 7)))
    by (vm_compute; reflexivity).
  apply (proj1 (proj2 (filter_exec_failure _ _ _ _ _ _ _ _ _ _ _ _ H))).
  cbn. discriminate.
Defined.

(** X9.  Outside a dry run, on a non-empty array, the algorithm identifiers
    absent, ["auto"], ["inplace"], ["compact"] and ["lane-compact"] all give
    the same call result, for every lane count and mode: success, the
    buffer of the in-place strategy, and its count in the output slot.
    ["stable"] and ["lane-stable"] give it too when the scratch allocation
    succeeds. *)
Theorem filter_exec_compaction_ids
        (user : Type) (pred : predicate user) (u : user)
        (malloc : Z -> option (list byte))
        (base : list byte) (count : Z)
        (type_id algorithm_id mode_id : option string) (lanes : Z)
        (out : option Z) :
  let stride := fossil_algorithm_filter_type_sizeof type_id in
  let result :=
    Some (mkExec 0
            (Some (fst (filter_inplace base count stride pred u)))
            (match out with
             | Some _ => Some (snd (filter_inplace base count stride pred u))
             | None => None
             end)) in
  buffer_ok base count stride -> 0 < count -> 0 <= lanes ->
  mode_id <> Some "dry-run"%string ->
  (In algorithm_id
      [None; Some "auto"; Some "inplace"; Some "compact";
       Some "lane-compact"]%string ->
   fossil_algorithm_filter_exec malloc (Some base) count type_id
     algorithm_id mode_id lanes (Some pred) u out = result) /\
  (In algorithm_id [Some "stable"; Some "lane-stable"]%string ->
   malloc_ok malloc -> malloc (wrap (count * stride)) <> None ->
   fossil_algorithm_filter_exec malloc (Some base) count type_id
     algorithm_id mode_id lanes (Some pred) u out = result).
Proof.
  intros stride result Hbuf Hc Hl Hmode.
  assert (Hm : match mode_id with Some m => m | None => "auto"%string end
               <> "dry-run"%string).
  { destruct mode_id as [m |]; [congruence | discriminate]. }
  assert (Hst : (stride =? 0) = false).
  { destruct Hbuf as (Hs & _). apply Z.eqb_neq. lia. }
  pose proof (lane_compact_inplace_eq user pred u base count stride
                lanes Hbuf Hc Hl) as Hlane.
  split.
  - intros Hin. unfold fossil_algorithm_filter_exec. fold stride.
    rewrite Hst. cbv zeta. rewrite resolve_no_dry_run by exact Hm.
    cbn [In] in Hin.
    assert (Hlc : match dispatch malloc "lane-compact" base count stride
                                 lanes pred u with
                  | Ran res =>
                      Some (mkExec 0 (Some (fst res))
                                   (match out with
                                    | Some _ => Some (snd res)
                                    | None => None
                                    end))
                  | UnknownAlgorithm => Some (mkExec (-3) (Some base) out)
                  | UndefinedBehaviour => None
                  end = result).
    { change (dispatch malloc "lane-compact" base count stride lanes pred u)
        with (ran (filter_lane_compact base count stride lanes pred u)).
      rewrite Hlane. reflexivity. }
    assert (Hauto : match dispatch malloc
                            (if streq "auto" "auto" then
                               if streq match mode_id with
                                        | Some m => m
                                        | None => "auto"%string
                                        end "lane" || (1 <? lanes)
                               then "lane-compact"%string
                               else "inplace"%string
                             else "auto"%string)
                            base count stride lanes pred u with
                    | Ran res =>
                        Some (mkExec 0 (Some (fst res))
                                     (match out with
                                      | Some _ => Some (snd res)
                                      | None => None
                                      end))
                    | UnknownAlgorithm => Some (mkExec (-3) (Some base) out)
                    | UndefinedBehaviour => None
                    end = result).
    { change (streq "auto" "auto") with true. cbv iota.
      destruct (streq _ "lane" || (1 <? lanes)); [exact Hlc | reflexivity]. }
    destruct Hin as [<- | [<- | [<- | [<- | [<- | []]]]]].
    + exact Hauto.
    + exact Hauto.
    + reflexivity.
    + reflexivity.
    + exact Hlc.
  - intros Hin Hok Hsome.
    destruct (stable_inplace_eq user pred u malloc base count stride
                Hbuf Hok Hsome) as (Hstable & Hlstable).
    unfold fossil_algorithm_filter_exec. fold stride.
    rewrite Hst. cbv zeta. rewrite resolve_no_dry_run by exact Hm.
    cbn [In] in Hin. destruct Hin as [<- | [<- | []]].
    + change (streq "stable" "auto") with false. cbv iota.
      change (dispatch malloc "stable" base count stride lanes pred u)
        with (Ran (filter_stable malloc base count stride pred u)).
      rewrite Hstable. reflexivity.
    + change (streq "lane-stable" "auto") with false. cbv iota.
      change (dispatch malloc "lane-stable" base count stride lanes pred u)
        with (ran (filter_lane_stable malloc base count stride lanes pred u)).
      rewrite (Hlstable lanes Hc Hl). reflexivity.
Qed.

Lemma filter_exec_compaction_ids_witness :
  fossil_algorithm_filter_exec malloc_zeroed (Some arr_1_to_6) 6
    (Some "i32"%string) None (Some "lane"%string) 4 (Some keep_even) tt
    (Some 0) =
  Some (mkExec 0 (Some (i32s [2; 4; 6; 4; 5; 6])) (Some 3)).
Proof.
  assert (Hm : Some "lane"%string <> Some "dry-run"%string) by discriminate.
  apply (proj1 (filter_exec_compaction_ids unit keep_even tt malloc_zeroed
                  arr_1_to_6 6 (Some "i32"%string) None (Some "lane"%string)
                  4 (Some 0) arr_1_to_6_ok ltac:(lia) ltac:(lia) Hm)).
  left. reflexivity.
Defined.

(* ====================================================== *)
(** ** The two type registries *)
(* ====================================================== *)

(** X10.  Every type the reduce registry supports is supported by the filter
    registry with the same width; ["char"], ["cstr"], ["hex"], ["oct"] and
    ["bin"] are filter types only. *)
Theorem reduce_types_are_filter_types (type_id : option string) :
  Reduce.fossil_algorithm_reduce_type_sizeof type_id <> 0 ->
  fossil_algorithm_filter_type_sizeof type_id =
  Reduce.fossil_algorithm_reduce_type_sizeof type_id /\
  fossil_algorithm_filter_type_supported type_id = true /\
  Forall (fun id =>
            fossil_algorithm_filter_type_supported (Some id) = true /\
            Reduce.fossil_algorithm_reduce_type_supported (Some id) = false)
         ["char"; "cstr"; "hex"; "oct"; "bin"]%string.
Proof.
  intros H.
  assert (Heq : fossil_algorithm_filter_type_sizeof type_id =
                Reduce.fossil_algorithm_reduce_type_sizeof type_id).
  { destruct type_id as [id |]; [| reflexivity].
    revert H.
    unfold Reduce.fossil_algorithm_reduce_type_sizeof, Reduce.g_reduce_types.
    cbn [Reduce.table_lookup].
    repeat match goal with
           | |- context [String.eqb id ?k] =>
               destruct (String.eqb_spec id k) as [-> | ?];
               [intros H; try (vm_compute; reflexivity);
                exfalso; apply H; reflexivity |]
           end.
    intros H. exfalso. apply H. reflexivity. }
  split; [exact Heq |]. split.
  - unfold fossil_algorithm_filter_type_supported. rewrite Heq.
    apply Z.eqb_neq in H. rewrite H. reflexivity.
  - repeat constructor.
Qed.

Lemma reduce_types_are_filter_types_witness :
  fossil_algorithm_filter_type_sizeof (Some "duration"%string) =
  Reduce.fossil_algorithm_reduce_type_sizeof (Some "duration"%string).
Proof.
  apply (reduce_types_are_filter_types (Some "duration"%string)).
  cbn. lia.
Defined.

(* ====================================================== *)
(** ** Integers in memory *)
(* ====================================================== *)

















(* ====================================================== *)
(** ** Reduce: the loops *)
(* ====================================================== *)

Lemma elem_loop_app (body : Z -> list byte -> Reduce.outcome) (n k : nat) :
  forall (i : Z) (accum : list byte),
    Reduce.elem_loop (n + k) i body accum =
    match Reduce.elem_loop n i body accum with
    | Reduce.Next accum' => Reduce.elem_loop k (i + Z.of_nat n) body accum'
    | o => o
    end.
Proof.
  induction n as [| n IH]; intros i accum;
    cbn [Reduce.elem_loop Nat.add].
  - f_equal. lia.
  - destruct (body i accum); try reflexivity.
    rewrite IH.
    replace (i + 1 + Z.of_nat n) with (i + Z.of_nat (S n)) by lia.
    reflexivity.
Qed.

(** A body that folds and never returns makes the element loop a fold
    over the elements, in index order. *)
Lemma elem_loop_fold
      (bytes : list byte) (stride : Z)
      (body : Z -> list byte -> Reduce.outcome)
      (f : list byte -> list byte -> list byte) (n : nat) :
  (forall i a, body i a = Reduce.Next (f a (elem_at bytes stride i))) ->
  forall (i : Z) (accum : list byte),
    Reduce.elem_loop n i body accum =
    Reduce.Next (fold_left f (elems_from bytes stride i n) accum).
Proof.
  intros Hbody. induction n as [| n IH]; intros i accum;
    cbn [Reduce.elem_loop elems_from fold_left].
  - reflexivity.
  - rewrite Hbody. apply IH.
Qed.

(** With a positive lane size and no overflow the lanes still to run scan
    the rest of the array once, in index order. *)
Lemma reduce_lane_loop_flat
      (body : Z -> list byte -> Reduce.outcome) (count ls : Z) (n : nat) :
  0 < ls -> 0 <= count ->
  forall (lane : Z) (accum : list byte),
    0 <= lane ->
    count <= (lane + Z.of_nat n) * ls ->
    (lane + Z.of_nat n) * ls < SIZE_MOD ->
    Reduce.reduce_lane_loop n lane count ls body accum =
    Reduce.elem_loop (Z.to_nat (count - Z.min (lane * ls) count))
                     (Z.min (lane * ls) count) body accum.
Proof.
  intros Hls Hc. induction n as [| n IH]; intros lane accum Hl Hcov Hmax;
    cbn [Reduce.reduce_lane_loop].
  - replace (Z.min (lane * ls) count) with count by lia.
    rewrite Z.sub_diag. reflexivity.
  - assert (Hs : wrap (lane * ls) = lane * ls) by (apply wrap_small; nia).
    rewrite Hs.
    destruct (Z.leb_spec count (lane * ls)) as [Hge | Hlt].
    + replace (Z.min (lane * ls) count) with count by lia.
      rewrite Z.sub_diag. reflexivity.
    + assert (He : wrap (lane * ls + ls) = lane * ls + ls)
        by (apply wrap_small; nia).
      rewrite He.
      replace (Z.min (lane * ls) count) with (lane * ls) by lia.
      replace (if count <? lane * ls + ls then count else lane * ls + ls)
        with (Z.min ((lane + 1) * ls) count)
        by (destruct (Z.ltb_spec count (lane * ls + ls)); lia).
      set (stop := Z.min ((lane + 1) * ls) count).
      replace (Z.to_nat (count - lane * ls))
        with (Z.to_nat (stop - lane * ls) + Z.to_nat (count - stop))%nat
        by lia.
      rewrite elem_loop_app.
      destruct (Reduce.elem_loop (Z.to_nat (stop - lane * ls)) (lane * ls)
                                 body accum) as [accum' | st accum' |];
        try reflexivity.
      rewrite IH by (try lia; nia).
      fold stop. f_equal. lia.
Qed.

(** The lane size of [fossil_algorithm_reduce_exec] when nothing wraps. *)
Lemma reduce_lane_size_bounds (count lanes : Z) :
  1 <= count -> 1 <= lanes -> count + lanes <= SIZE_MOD ->
  let ls := wrap (count + lanes - 1) / lanes in
  0 < ls /\ count <= lanes * ls /\ lanes * ls < SIZE_MOD.
Proof.
  intros Hc Hl Hfit. cbv zeta.
  rewrite wrap_small by lia.
  assert (Hd := Z.div_mod (count + lanes - 1) lanes ltac:(lia)).
  assert (Hm := Z.mod_pos_bound (count + lanes - 1) lanes ltac:(lia)).
  assert (0 < (count + lanes - 1) / lanes)
    by (apply Z.div_str_pos; lia).
  repeat split; nia.
Qed.

(** When the lane arithmetic fits, a valid call is one scan of the array. *)
Lemma reduce_exec_scan
      (F : Reduce.float_ops) (user : Type)
      (bytes : list byte) (count : Z) (type_id op_id : string)
      (mode_id : option string) (lanes : Z) (accum : list byte)
      (reduce_fn : option (Reduce.reducer user)) (u : user) :
  let stride := Reduce.fossil_algorithm_reduce_type_sizeof (Some type_id) in
  stride <> 0 ->
  Reduce.streq op_id "custom" && Reduce.is_null reduce_fn = false ->
  lanes_fit count lanes ->
  Reduce.fossil_algorithm_reduce_exec F (Some bytes) count (Some type_id)
    (Some op_id) mode_id lanes (Some accum) reduce_fn u =
  outcome_result
    (Reduce.elem_loop (Z.to_nat count) 0
       (fun i a =>
          Reduce.reduce_elem F user op_id type_id reduce_fn u a
                             (elem_at bytes stride i))
       (Reduce.init_accumulator op_id type_id stride accum)).
Proof.
  intros stride Hst Hguard (Hc & Hl & Hfit).
  unfold Reduce.fossil_algorithm_reduce_exec. fold stride.
  destruct (Z.eqb_spec stride 0) as [E | _]; [contradiction |].
  rewrite Hguard. cbv zeta.
  set (body := fun i a => Reduce.reduce_elem F user op_id type_id reduce_fn u a
                                             (elem_at bytes stride i)).
  set (a0 := Reduce.init_accumulator op_id type_id stride accum).
  set (lanes' := if lanes =? 0 then 1 else lanes).
  assert (Hl' : 1 <= lanes' /\ count + lanes' <= SIZE_MOD).
  { unfold lanes'. destruct (Z.eqb_spec lanes 0); lia. }
  assert (Hloop : Reduce.reduce_lane_loop (Z.to_nat lanes') 0 count
                    (wrap (count + lanes' - 1) / lanes') body a0 =
                  Reduce.elem_loop (Z.to_nat count) 0 body a0).
  { destruct (Z.eq_dec count 0) as [-> | Hne].
    - rewrite reduce_lane_loop_empty by lia. reflexivity.
    - destruct (reduce_lane_size_bounds count lanes' ltac:(lia)
                  ltac:(lia) ltac:(lia)) as (Hls & Hcov & Hmax).
      rewrite reduce_lane_loop_flat by lia.
      replace (Z.min (0 * (wrap (count + lanes' - 1) / lanes')) count)
        with 0 by lia.
      rewrite Z.sub_0_r. reflexivity. }
  rewrite Hloop. unfold outcome_result.
  destruct (Reduce.elem_loop (Z.to_nat count) 0 body a0); reflexivity.
Qed.

(* ====================================================== *)
(** ** Reduce: the entry point *)
(* ====================================================== *)

(** X11.  The lane count only shapes the scan: whenever [count + lanes] fits in
    a [size_t], a call returns the status and leaves the accumulator of the
    same call with [lanes = 0] (one lane), whatever the other arguments. *)
Theorem reduce_exec_lanes_independent
        (F : Reduce.float_ops) (user : Type)
        (base : option (list byte)) (count : Z)
        (type_id op_id mode_id : option string) (lanes : Z)
        (out_result : option (list byte))
        (reduce_fn : option (Reduce.reducer user)) (u : user) :
  lanes_fit count lanes ->
  Reduce.fossil_algorithm_reduce_exec F base count type_id op_id mode_id
    lanes out_result reduce_fn u =
  Reduce.fossil_algorithm_reduce_exec F base count type_id op_id mode_id
    0 out_result reduce_fn u.
Proof.
  intros Hfit.
  assert (Hfit0 : lanes_fit count 0)
    by (destruct Hfit as (? & ? & ?); repeat split; lia).
  destruct base as [bytes |], out_result as [accum |],
           type_id as [ty |], op_id as [op |]; try reflexivity.
  destruct (Z.eq_dec (Reduce.fossil_algorithm_reduce_type_sizeof (Some ty)) 0)
    as [E | E].
  - unfold Reduce.fossil_algorithm_reduce_exec.
    apply Z.eqb_eq in E. rewrite E. reflexivity.
  - destruct (Reduce.streq op "custom" && Reduce.is_null reduce_fn) eqn:Hg.
    + unfold Reduce.fossil_algorithm_reduce_exec. rewrite Hg.
      destruct (_ =? 0); reflexivity.
    + rewrite !reduce_exec_scan by assumption. reflexivity.
Qed.

Lemma reduce_exec_lanes_independent_witness :
  Reduce.fossil_algorithm_reduce_exec no_float (Some (i32s [1; 2; 3; 4; 5])) 5
    (Some "i32"%string) (Some "sum"%string) None 3 (Some (i32s [0])) None tt =
  Reduce.fossil_algorithm_reduce_exec no_float (Some (i32s [1; 2; 3; 4; 5])) 5
    (Some "i32"%string) (Some "sum"%string) None 0 (Some (i32s [0])) None tt.
Proof.
  apply reduce_exec_lanes_independent.
  unfold lanes_fit, SIZE_MOD, SIZE_BITS. lia.
Defined.

Lemma reduce_elem_guarded
      (F : Reduce.float_ops) (user : Type) (op_id type_id : string)
      (reduce_fn : option (Reduce.reducer user)) (u : user)
      (accum elem : list byte) :
  guarded_outcome op_id
    (Reduce.reduce_elem F user op_id type_id reduce_fn u accum elem).
Proof.
  unfold Reduce.reduce_elem.
  destruct (Reduce.streq op_id "sum") eqn:H1; [exact I |].
  destruct (Reduce.streq op_id "min") eqn:H2; [exact I |].
  destruct (Reduce.streq op_id "max") eqn:H3; [exact I |].
  destruct (Reduce.streq op_id "count") eqn:H4; [exact I |].
  destruct (Reduce.streq op_id "any") eqn:H5;
    [destruct (Reduce.reduce_any accum elem); exact I |].
  destruct (Reduce.streq op_id "all") eqn:H6;
    [destruct (Reduce.reduce_all accum elem); exact I |].
  destruct (Reduce.streq op_id "custom") eqn:H7.
  - destruct reduce_fn; exact I.
  - split; [reflexivity |].
    unfold known_operator. cbn [existsb]. unfold Reduce.streq in *.
    rewrite H1, H2, H3, H4, H5, H6, H7. reflexivity.
Qed.

Lemma elem_loop_guarded
      (op_id : string) (body : Z -> list byte -> Reduce.outcome) (n : nat) :
  (forall i a, guarded_outcome op_id (body i a)) ->
  forall i a, guarded_outcome op_id (Reduce.elem_loop n i body a).
Proof.
  intros Hb. induction n as [| n IH]; intros i a; cbn [Reduce.elem_loop].
  - exact I.
  - specialize (Hb i a). destruct (body i a); [apply IH | exact Hb | exact Hb].
Qed.

Lemma reduce_lane_loop_guarded
      (op_id : string) (body : Z -> list byte -> Reduce.outcome)
      (count ls : Z) (n : nat) :
  (forall i a, guarded_outcome op_id (body i a)) ->
  forall lane a,
    guarded_outcome op_id (Reduce.reduce_lane_loop n lane count ls body a).
Proof.
  intros Hb. induction n as [| n IH]; intros lane a;
    cbn [Reduce.reduce_lane_loop].
  - exact I.
  - destruct (count <=? wrap (lane * ls)); [exact I |].
    match goal with
    | |- context [Reduce.elem_loop ?k ?i body a] =>
        pose proof (elem_loop_guarded op_id body k Hb i a) as He;
        destruct (Reduce.elem_loop k i body a)
    end; [apply IH | exact He | exact He].
Qed.

(** X12.  Whenever the call returns, its status is 0, -1, -2 or -3.  It is
    -1 exactly when the buffer, the accumulator, the type or the operator
    is null, or the operator is ["custom"] with a null reducer and a type
    of non-zero width; it is -2 exactly when the four are present and the
    type has width zero; -3 answers an operator the dispatch does not know
    and nothing else.  Under -1 and -2 the accumulator is as it was. *)
Theorem reduce_exec_status
        (F : Reduce.float_ops) (user : Type)
        (base : option (list byte)) (count : Z)
        (type_id op_id mode_id : option string) (lanes : Z)
        (out_result : option (list byte))
        (reduce_fn : option (Reduce.reducer user)) (u : user)
        (r : Reduce.reduce_result) :
  Reduce.fossil_algorithm_reduce_exec F base count type_id op_id mode_id
    lanes out_result reduce_fn u = Some r ->
  (Reduce.status r = 0 \/ Reduce.status r = -1 \/
   Reduce.status r = -2 \/ Reduce.status r = -3) /\
  (Reduce.status r = -1 \/ Reduce.status r = -2 ->
   Reduce.accumulator r = out_result) /\
  (Reduce.status r = -1 <->
   base = None \/ out_result = None \/ type_id = None \/ op_id = None \/
   (Reduce.fossil_algorithm_reduce_type_sizeof type_id <> 0 /\
    op_id = Some "custom"%string /\ reduce_fn = None)) /\
  (Reduce.status r = -2 <->
   base <> None /\ out_result <> None /\ type_id <> None /\
   op_id <> None /\
   Reduce.fossil_algorithm_reduce_type_sizeof type_id = 0) /\
  (Reduce.status r = -3 ->
   exists op, op_id = Some op /\ known_operator op = false).
Proof.
  unfold Reduce.fossil_algorithm_reduce_exec. intros Hr.
  assert (Hnull :
    base = None \/ out_result = None \/ type_id = None \/ op_id = None ->
    r = Reduce.mkReduce (-1) out_result ->
    (Reduce.status r = 0 \/ Reduce.status r = -1 \/
     Reduce.status r = -2 \/ Reduce.status r = -3) /\
    (Reduce.status r = -1 \/ Reduce.status r = -2 ->
     Reduce.accumulator r = out_result) /\
    (Reduce.status r = -1 <->
     base = None \/ out_result = None \/ type_id = None \/ op_id = None \/
     (Reduce.fossil_algorithm_reduce_type_sizeof type_id <> 0 /\
      op_id = Some "custom"%string /\ reduce_fn = None)) /\
    (Reduce.status r = -2 <->
     base <> None /\ out_result <> None /\ type_id <> None /\
     op_id <> None /\
     Reduce.fossil_algorithm_reduce_type_sizeof type_id = 0) /\
    (Reduce.status r = -3 ->
     exists op, op_id = Some op /\ known_operator op = false)).
  { intros Hn ->. cbn [Reduce.status Reduce.accumulator].
    split; [right; left; reflexivity |].
    split; [intros _; reflexivity |].
    split; [split; [intros _; tauto | intros _; reflexivity] |].
    split; [split; [discriminate | intros (? & ? & ? & ? & _); tauto] |].
    discriminate. }
  destruct base as [bytes |];
    [| apply Hnull; [auto | congruence]].
  destruct out_result as [accum |];
    [| apply Hnull; [auto | congruence]].
  destruct type_id as [ty |];
    [| apply Hnull; [auto | congruence]].
  destruct op_id as [op |];
    [| apply Hnull; [auto 6 | congruence]].
  clear Hnull.
  destruct (Z.eqb_spec (Reduce.fossil_algorithm_reduce_type_sizeof (Some ty)) 0)
    as [E | E].
  - injection Hr as <-. cbn [Reduce.status Reduce.accumulator].
    split; [right; right; left; reflexivity |].
    split; [intros _; reflexivity |].
    split; [split; [discriminate |] |].
    { intros [H | [H | [H | [H | (H & _)]]]];
        try discriminate H; contradiction. }
    split; [split; [intros _; repeat split; try discriminate; exact E
                   | intros _; reflexivity] |].
    discriminate.
  - destruct (Reduce.streq op "custom" && Reduce.is_null reduce_fn) eqn:Hg.
    + injection Hr as <-. cbn [Reduce.status Reduce.accumulator].
      apply andb_true_iff in Hg. destruct Hg as (Hop & Hfn).
      apply String.eqb_eq in Hop. subst op.
      destruct reduce_fn; [discriminate Hfn |].
      split; [right; left; reflexivity |].
      split; [intros _; reflexivity |].
      split; [split; [intros _; do 4 right; repeat split; assumption
                     | intros _; reflexivity] |].
      split; [split; [discriminate
                     | intros (_ & _ & _ & _ & H); contradiction] |].
      discriminate.
    + assert (Hng : ~ (Some op = Some "custom"%string /\ reduce_fn = None)).
      { intros (Hop & Hfn). injection Hop as ->. subst reduce_fn.
        discriminate Hg. }
      cbv zeta in Hr.
      match type of Hr with
      | context [Reduce.reduce_lane_loop ?n ?l ?c ?ls ?body ?a] =>
          assert (Hgo : guarded_outcome op
                          (Reduce.reduce_lane_loop n l c ls body a))
            by (apply reduce_lane_loop_guarded; intros i a';
                apply reduce_elem_guarded);
          destruct (Reduce.reduce_lane_loop n l c ls body a)
            as [a1 | st a1 |]
      end; try discriminate Hr; injection Hr as <-;
        cbn [Reduce.status Reduce.accumulator].
      * split; [left; reflexivity |].
        split; [intros [H | H]; discriminate H |].
        split; [split; [discriminate |] |].
        { intros [H | [H | [H | [H | (_ & Hop & Hfn)]]]];
            try discriminate H. exfalso. apply Hng. split; assumption. }
        split; [split; [discriminate
                       | intros (_ & _ & _ & _ & H); contradiction] |].
        discriminate.
      * destruct Hgo as (-> & Hk).
        split; [do 3 right; reflexivity |].
        split; [intros [H | H]; discriminate H |].
        split; [split; [discriminate |] |].
        { intros [H | [H | [H | [H | (_ & Hop & Hfn)]]]];
            try discriminate H. exfalso. apply Hng. split; assumption. }
        split; [split; [discriminate
                       | intros (_ & _ & _ & _ & H); contradiction] |].
        intros _. eexists; split; [reflexivity | exact Hk].
Qed.

(** X12 on a ["custom"] request without a reducer: the call returns -1 and
    the accumulator is the one passed in. *)
Lemma reduce_exec_status_witness :
  Reduce.fossil_algorithm_reduce_exec no_float
    (Some (i32s [1; 2; 3])) 3 (Some "i32"%string)
    (Some "custom"%string) None 0 (Some (i32s [7])) None tt =
  Some (Reduce.mkReduce (-1) (Some (i32s [7]))) /\
  Reduce.accumulator (Reduce.mkReduce (-1) (Some (i32s [7]))) =
  Some (i32s [7]).
Proof.
  assert (H : Reduce.fossil_algorithm_reduce_exec no_float
                (Some (i32s [1; 2; 3])) 3 (Some "i32"%string)
                (Some "custom"%string) None 0 (Some (i32s [7])) None tt =
              Some (Reduce.mkReduce (-1) (Some (i32s [7]))))
    by (vm_compute; reflexivity).
  split; [exact H |].
  apply (proj1 (proj2 (reduce_exec_status _ _ _ _ _ _ _ _ _ _ _ _ H))).
  left. reflexivity.
Defined.

Lemma unknown_operator_status
        (F : Reduce.float_ops) (user : Type)
        (bytes : list byte) (count : Z) (type_id op_id : string)
        (mode_id : option string) (lanes : Z) (accum : list byte)
        (reduce_fn : option (Reduce.reducer user)) (u : user) :
  Reduce.fossil_algorithm_reduce_type_sizeof (Some type_id) <> 0 ->
  known_operator op_id = false ->
  1 <= count -> lanes_fit count lanes ->
  Reduce.fossil_algorithm_reduce_exec F (Some bytes) count (Some type_id)
    (Some op_id) mode_id lanes (Some accum) reduce_fn u =
  Some (Reduce.mkReduce (-3) (Some accum)).
Proof.
  intros Hty Hop Hc Hfit.
  destruct (known_operator_false op_id Hop)
    as (Hsum & Hmin & Hmax & Hcnt & Hany & Hall & Hcus).
  rewrite reduce_exec_scan;
    [| exact Hty | rewrite Hcus; reflexivity | exact Hfit].
  destruct (Z.to_nat count) as [| n] eqn:Hn; [lia |].
  cbn [Reduce.elem_loop]. unfold Reduce.reduce_elem at 1.
  rewrite Hsum, Hmin, Hmax, Hcnt, Hany, Hall, Hcus.
  unfold Reduce.init_accumulator.
  rewrite Hsum, Hmin, Hmax, Hcnt, Hany, Hall. reflexivity.
Qed.

(** X13.  An operator the dispatch does not know is reported at the first
    element and before any write: on a non-empty array (lane arithmetic
    fitting) the call returns -3 and the accumulator is untouched. *)
Theorem reduce_exec_unknown_operator
        (F : Reduce.float_ops) (user : Type)
        (bytes : list byte) (count : Z) (type_id op_id : string)
        (mode_id : option string) (lanes : Z) (accum : list byte)
        (reduce_fn : option (Reduce.reducer user)) (u : user) :
  Reduce.fossil_algorithm_reduce_type_sizeof (Some type_id) <> 0 ->
  known_operator op_id = false ->
  1 <= count -> lanes_fit count lanes ->
  Reduce.fossil_algorithm_reduce_exec F (Some bytes) count (Some type_id)
    (Some op_id) mode_id lanes (Some accum) reduce_fn u =
  Some (Reduce.mkReduce (-3) (Some accum)).
Proof.
  exact (unknown_operator_status F user bytes count type_id op_id mode_id lanes
           accum reduce_fn u).
Qed.

Lemma reduce_exec_unknown_operator_witness :
  Reduce.fossil_algorithm_reduce_exec no_float (Some (i32s [1; 2; 3])) 3
    (Some "i32"%string) (Some "notop"%string) (Some "auto"%string) 0
    (Some (i32s [0])) None tt =
  Some (Reduce.mkReduce (-3) (Some (i32s [0]))).
Proof.
  apply reduce_exec_unknown_operator.
  - cbn. lia.
  - reflexivity.
  - lia.
  - unfold lanes_fit, SIZE_MOD, SIZE_BITS. lia.
Defined.

Lemma reduce_lane_loop_zero_size
      (body : Z -> list byte -> Reduce.outcome) (count : Z) (n : nat) :
  0 < count ->
  forall lane accum,
    Reduce.reduce_lane_loop n lane count 0 body accum = Reduce.Next accum.
Proof.
  intros Hc. induction n as [| n IH]; intros lane accum;
    cbn [Reduce.reduce_lane_loop].
  - reflexivity.
  - rewrite Z.mul_0_r. change (wrap 0) with 0. change (wrap (0 + 0)) with 0.
    destruct (Z.leb_spec count 0); [lia |].
    destruct (Z.ltb_spec count 0); [lia |].
    cbn [Z.sub Z.to_nat Reduce.elem_loop]. apply IH.
Qed.

(** X14.  When [count + lanes] exceeds [2^64], [count + lanes - 1] wraps, the
    lane size is zero and every lane is empty: a valid call on a non-empty
    array returns 0 having folded no element, the accumulator holding its
    initial value. *)
Theorem reduce_exec_lane_overflow
        (F : Reduce.float_ops) (user : Type)
        (bytes : list byte) (count : Z) (type_id op_id : string)
        (mode_id : option string) (lanes : Z) (accum : list byte)
        (reduce_fn : option (Reduce.reducer user)) (u : user) :
  Reduce.fossil_algorithm_reduce_type_sizeof (Some type_id) <> 0 ->
  Reduce.streq op_id "custom" && Reduce.is_null reduce_fn = false ->
  1 <= count < SIZE_MOD -> 1 <= lanes < SIZE_MOD ->
  SIZE_MOD < count + lanes ->
  Reduce.fossil_algorithm_reduce_exec F (Some bytes) count (Some type_id)
    (Some op_id) mode_id lanes (Some accum) reduce_fn u =
  Some (Reduce.mkReduce 0
          (Some (Reduce.init_accumulator op_id type_id
                   (Reduce.fossil_algorithm_reduce_type_sizeof (Some type_id))
                   accum))).
Proof.
  intros Hty Hg Hc Hl Hover.
  unfold Reduce.fossil_algorithm_reduce_exec.
  destruct (Z.eqb_spec (Reduce.fossil_algorithm_reduce_type_sizeof
                          (Some type_id)) 0) as [E | _]; [contradiction |].
  rewrite Hg. cbv zeta.
  destruct (Z.eqb_spec lanes 0) as [E | _]; [lia |].
  assert (Hls : wrap (count + lanes - 1) / lanes = 0).
  { unfold wrap.
    replace (count + lanes - 1)
      with (count + lanes - 1 - SIZE_MOD + 1 * SIZE_MOD) by lia.
    rewrite Z.mod_add by (unfold SIZE_MOD, SIZE_BITS; lia).
    rewrite Z.mod_small by lia.
    apply Z.div_small. lia. }
  rewrite Hls, reduce_lane_loop_zero_size by lia. reflexivity.
Qed.

Lemma reduce_exec_lane_overflow_witness :
  Reduce.fossil_algorithm_reduce_exec no_float (Some (i32s [1; 2; 3])) 3
    (Some "i32"%string) (Some "sum"%string) (Some "auto"%string)
    (SIZE_MOD - 1) (Some (i32s [9])) None tt =
  Some (Reduce.mkReduce 0 (Some (i32s [0]))).
Proof.
  apply (reduce_exec_lane_overflow no_float unit (i32s [1; 2; 3]) 3
           "i32" "sum" (Some "auto"%string) (SIZE_MOD - 1) (i32s [9]) None tt).
  - cbn. lia.
  - reflexivity.
  - unfold SIZE_MOD, SIZE_BITS. lia.
  - unfold SIZE_MOD, SIZE_BITS. lia.
  - unfold SIZE_MOD, SIZE_BITS. lia.
Defined.

(* ====================================================== *)
(** ** Reduce: the operators *)
(* ====================================================== *)
















Lemma elem_loop_identity
      (body : Z -> list byte -> Reduce.outcome) (n : nat) :
  (forall i a, body i a = Reduce.Next a) ->
  forall i a, Reduce.elem_loop n i body a = Reduce.Next a.
Proof.
  intros Hb. induction n as [| n IH]; intros i a; cbn [Reduce.elem_loop].
  - reflexivity.
  - rewrite Hb. apply IH.
Qed.

Lemma reduce_lane_loop_identity
      (body : Z -> list byte -> Reduce.outcome) (count ls : Z) (n : nat) :
  (forall i a, body i a = Reduce.Next a) ->
  forall lane a,
    Reduce.reduce_lane_loop n lane count ls body a = Reduce.Next a.
Proof.
  intros Hb. induction n as [| n IH]; intros lane a;
    cbn [Reduce.reduce_lane_loop].
  - reflexivity.
  - destruct (count <=? wrap (lane * ls)); [reflexivity |].
    rewrite elem_loop_identity by exact Hb. apply IH.
Qed.

Lemma streq_not_in (id : string) (ids : list string) :
  ~ In id ids -> Forall (fun k => Reduce.streq id k = false) ids.
Proof.
  intros Hni. apply Forall_forall. intros k Hk.
  apply String.eqb_neq. intros ->. contradiction.
Qed.

(** X17.  The numeric operators do nothing for the types they have no branch
    for, and report success all the same.  For a supported type outside
    [i8] ... [i64], [f32], [f64] (so for every unsigned type, [bool],
    [size], [datetime], [duration] and [any]), ["min"] and ["max"] leave
    the accumulator exactly as the caller passed it; for a supported type
    outside the ten numeric ones ["sum"] only zeroes its first [stride]
    bytes.  This holds for every array, count and lane count. *)
Theorem reduce_numeric_no_branch
        (F : Reduce.float_ops) (user : Type)
        (bytes : list byte) (count : Z) (type_id : string)
        (mode_id : option string) (lanes : Z) (accum : list byte)
        (reduce_fn : option (Reduce.reducer user)) (u : user) :
  let stride := Reduce.fossil_algorithm_reduce_type_sizeof (Some type_id) in
  stride <> 0 ->
  (~ In type_id minmax_types ->
   Reduce.fossil_algorithm_reduce_exec F (Some bytes) count (Some type_id)
     (Some "min"%string) mode_id lanes (Some accum) reduce_fn u =
   Some (Reduce.mkReduce 0 (Some accum)) /\
   Reduce.fossil_algorithm_reduce_exec F (Some bytes) count (Some type_id)
     (Some "max"%string) mode_id lanes (Some accum) reduce_fn u =
   Some (Reduce.mkReduce 0 (Some accum))) /\
  (~ In type_id sum_types ->
   Reduce.fossil_algorithm_reduce_exec F (Some bytes) count (Some type_id)
     (Some "sum"%string) mode_id lanes (Some accum) reduce_fn u =
   Some (Reduce.mkReduce 0 (Some (memset accum 0 x00 stride)))).
Proof.
  intros stride Hst. split.
  - intros Hni. apply streq_not_in in Hni. unfold minmax_types in Hni.
    repeat match goal with
           | H : Forall _ (_ :: _) |- _ => inversion H; subst; clear H
           end.
    unfold Reduce.fossil_algorithm_reduce_exec. fold stride.
    destruct (Z.eqb_spec stride 0) as [E | _]; [contradiction |].
    split.
    + change (Reduce.streq "min" "custom") with false. cbn [andb]. cbv zeta.
      rewrite reduce_lane_loop_identity.
      * unfold Reduce.init_accumulator.
        change (Reduce.streq "min" "sum") with false.
        change (Reduce.streq "min" "count") with false.
        change (Reduce.streq "min" "min") with true.
        cbn [orb]. cbv iota.
        repeat match goal with
               | H : Reduce.streq type_id _ = false |- _ => rewrite H; clear H
               end.
        reflexivity.
      * intros i a. unfold Reduce.reduce_elem.
        change (Reduce.streq "min" "sum") with false.
        change (Reduce.streq "min" "min") with true. cbv iota.
        unfold Reduce.reduce_min.
        repeat match goal with
               | H : Reduce.streq type_id _ = false |- _ => rewrite H
               end.
        reflexivity.
    + change (Reduce.streq "max" "custom") with false. cbn [andb]. cbv zeta.
      rewrite reduce_lane_loop_identity.
      * unfold Reduce.init_accumulator.
        change (Reduce.streq "max" "sum") with false.
        change (Reduce.streq "max" "count") with false.
        change (Reduce.streq "max" "min") with false.
        change (Reduce.streq "max" "max") with true.
        cbn [orb]. cbv iota.
        repeat match goal with
               | H : Reduce.streq type_id _ = false |- _ => rewrite H; clear H
               end.
        reflexivity.
      * intros i a. unfold Reduce.reduce_elem.
        change (Reduce.streq "max" "sum") with false.
        change (Reduce.streq "max" "min") with false.
        change (Reduce.streq "max" "max") with true. cbv iota.
        unfold Reduce.reduce_max.
        repeat match goal with
               | H : Reduce.streq type_id _ = false |- _ => rewrite H
               end.
        reflexivity.
  - intros Hni. apply streq_not_in in Hni. unfold sum_types in Hni.
    repeat match goal with
           | H : Forall _ (_ :: _) |- _ => inversion H; subst; clear H
           end.
    unfold Reduce.fossil_algorithm_reduce_exec. fold stride.
    destruct (Z.eqb_spec stride 0) as [E | _]; [contradiction |].
    change (Reduce.streq "sum" "custom") with false. cbn [andb]. cbv zeta.
    rewrite reduce_lane_loop_identity; [reflexivity |].
    intros i a. unfold Reduce.reduce_elem.
    change (Reduce.streq "sum" "sum") with true. cbv iota.
    unfold Reduce.reduce_sum.
    repeat match goal with
           | H : Reduce.streq type_id _ = false |- _ => rewrite H
           end.
    reflexivity.
Qed.

Lemma reduce_numeric_no_branch_witness :
  Reduce.fossil_algorithm_reduce_exec no_float (Some (encode_le 8 7)) 1
    (Some "u64"%string) (Some "min"%string) None 0
    (Some (encode_le 8 99)) None tt =
  Some (Reduce.mkReduce 0 (Some (encode_le 8 99))).
Proof.
  apply (reduce_numeric_no_branch no_float unit (encode_le 8 7) 1 "u64" None 0
           (encode_le 8 99) None tt).
  - cbn. lia.
  - cbn. intros H. repeat destruct H as [H | H]; try discriminate H. exact H.
Defined.










(** X20.  ["custom"] with a reducer: the accumulator is not initialised, and the
    reducer is applied once per element, in index order, to the
    accumulator as the previous application left it; the call returns 0
    with the result of that fold. *)
Theorem reduce_custom_fold
        (F : Reduce.float_ops) (user : Type)
        (bytes : list byte) (count : Z) (type_id : string)
        (mode_id : option string) (lanes : Z) (accum : list byte)
        (fn : Reduce.reducer user) (u : user) :
  let stride := Reduce.fossil_algorithm_reduce_type_sizeof (Some type_id) in
  stride <> 0 ->
  lanes_fit count lanes ->
  Reduce.fossil_algorithm_reduce_exec F (Some bytes) count (Some type_id)
    (Some "custom"%string) mode_id lanes (Some accum) (Some fn) u =
  Some (Reduce.mkReduce 0
          (Some (fold_left (fun a e => fn a e u)
                           (elements bytes stride count) accum))).
Proof.
  intros stride Hst Hfit.
  rewrite reduce_exec_scan; [| exact Hst | reflexivity | exact Hfit].
  fold stride.
  rewrite (elem_loop_fold bytes stride _ (fun a e => fn a e u))
    by (intros i a; reflexivity).
  reflexivity.
Qed.

Lemma reduce_custom_fold_witness :
  Reduce.fossil_algorithm_reduce_exec no_float (Some (i32s [2; 3; 4])) 3
    (Some "i32"%string) (Some "custom"%string) None 0 (Some (i32s [1]))
    (Some (fun a e (_ : unit) =>
             encode_le 4 (to_signed 32 (decode_le a)
                          * to_signed 32 (decode_le e))))
    tt =
  Some (Reduce.mkReduce 0 (Some (i32s [24]))).
Proof.
  rewrite reduce_custom_fold.
  - vm_compute. reflexivity.
  - cbn. lia.
  - unfold lanes_fit, SIZE_MOD, SIZE_BITS. lia.
Defined.

(* ====================================================== *)
(** ** The C++ wrappers *)
(* ====================================================== *)

(** X21.  [Filter::exec] called with its defaults (no algorithm, no mode, no
    lane count) on a supported type runs the in-place strategy and
    succeeds. *)
Theorem cxx_filter_exec_defaults
        (user : Type) (pred : predicate user) (u : user)
        (malloc : Z -> option (list byte))
        (base : list byte) (count : Z) (type_id : string) (out : option Z) :
  let stride := fossil_algorithm_filter_type_sizeof (Some type_id) in
  stride <> 0 ->
  Cxx.Filter_exec malloc (Some base) count type_id (Some pred) u out
                  None None None =
  Some (mkExec 0
          (Some (fst (filter_inplace base count stride pred u)))
          (match out with
           | Some _ => Some (snd (filter_inplace base count stride pred u))
           | None => None
           end)).
Proof.
  intros stride Hst.
  unfold Cxx.Filter_exec, Cxx.defaulted, fossil_algorithm_filter_exec.
  fold stride.
  destruct (Z.eqb_spec stride 0) as [E | _]; [contradiction |].
  reflexivity.
Qed.

Lemma cxx_filter_exec_defaults_witness :
  Cxx.Filter_exec malloc_zeroed (Some arr_1_to_6) 6 "i32" (Some keep_even) tt
                  (Some 0) None None None =
  Some (mkExec 0 (Some (i32s [2; 4; 6; 4; 5; 6])) (Some 3)).
Proof.
  rewrite cxx_filter_exec_defaults.
  - vm_compute. reflexivity.
  - cbn. lia.
Defined.

(** X22.  [Reduce::exec] called without an operator passes its default ["auto"],
    which the engine does not know: on a non-empty array the call fails
    with -3 and never touches the accumulator; on an empty one it returns
    0. *)
Theorem cxx_reduce_exec_default_operator
        (F : Reduce.float_ops) (user : Type)
        (bytes : list byte) (count : Z) (type_id : string)
        (accum : list byte)
        (fn : option (Reduce.reducer user)) (u : user) :
  Reduce.fossil_algorithm_reduce_type_sizeof (Some type_id) <> 0 ->
  0 <= count < SIZE_MOD ->
  Cxx.Reduce_exec F (Some bytes) count type_id (Some accum)
                  None None None fn u =
  Some (Reduce.mkReduce (if count =? 0 then 0 else -3) (Some accum)).
Proof.
  intros Hty Hc. unfold Cxx.Reduce_exec, Cxx.defaulted.
  destruct (Z.eqb_spec count 0) as [-> | Hne].
  - unfold Reduce.fossil_algorithm_reduce_exec.
    destruct (Z.eqb_spec (Reduce.fossil_algorithm_reduce_type_sizeof
                            (Some type_id)) 0) as [E | _]; [contradiction |].
    reflexivity.
  - apply unknown_operator_status;
      [exact Hty | reflexivity | lia |].
    unfold lanes_fit. lia.
Qed.

Lemma cxx_reduce_exec_default_operator_witness :
  Cxx.Reduce_exec no_float (Some (i32s [1; 2; 3])) 3 "i32" (Some (i32s [0]))
                  None None None None tt =
  Some (Reduce.mkReduce (-3) (Some (i32s [0]))).
Proof.
  apply (cxx_reduce_exec_default_operator no_float unit (i32s [1; 2; 3]) 3
           "i32" (i32s [0]) None tt).
  - cbn. lia.
  - unfold SIZE_MOD, SIZE_BITS. lia.
Defined.
